(** * Olric partition rebalancing: a shallow embedding of the move / merge core

    The development follows the rebalancer source file of the repository:
    [moveDMap], [selectVersionForMerge], [mergeDMaps],
    [rebalancePrimaryPartitions], [rebalanceBackupPartitions], [rebalancer],
    [checkOwnership] and [moveDMapOperation].

    Go values are embedded as follows.
    - [uint64], [int64] and [int] are [Z]; no arithmetic of the file can wrap
      (loop counters stay below [PartitionCount], slice lengths are small).
    - An [error] return is [option Error] ([None] is [nil]); a [(T, error)]
      return is [result T]; a function that can hit a runtime panic returns
      [ret _].
    - [sync.Map] (the partition's map table) and [map[uint64]int64] (the
      access log) are [gmap]s; a nil Go map is [None] where the source tests
      it against nil.
    - Pointers to a [dmap] are replaced by values: the one place where the
      source relies on the pointer, the deferred [part.m.Store(name, dm)] of
      [mergeDMaps], stores the final value of the [dmap].
    - The storage engine, the codec, the network, the member discovery and the
      version sort live in other packages; they are the fields of the classes
      [StorageEngine] and [Collaborators]. *)

From stdpp Require Import gmap strings list fin_maps.
From Stdlib Require Import ZArith Lia.

Local Open Scope Z_scope.

(** ** Errors, results and panics *)

Inductive Error : Type :=
| ErrKeyNotFound
| ErrFragmented
| ErrInvalidArgument
| ErrOther (msg : string)
| ErrWrap (msg : string) (cause : Error).

Global Instance Error_eq_dec : EqDecision Error.
Proof. solve_decision. Defined.

(** [errors.Is(err, target)]: does [target] occur in the [%w] chain? *)
Fixpoint errorsIs (err target : Error) : bool :=
  if decide (err = target) then true
  else match err with
       | ErrWrap _ cause => errorsIs cause target
       | _ => false
       end.

Inductive result (A : Type) : Type :=
| Ok (a : A)
| Err (err : Error).
Arguments Ok {A} a.
Arguments Err {A} err.

Inductive ret (A : Type) : Type :=
| Ret (a : A)
| Panic (why : string).
Arguments Ret {A} a.
Arguments Panic {A} why.

(** What a visitor passed to a [Range] method tells the iteration:
    [true] is [Next], [false] is [Stop]; [Crash] is a panic inside it. *)
Inductive ctl : Type :=
| Next
| Stop
| Crash (why : string).

(** [Range(visitor)] over the key/value pairs [kvs], threading the state the
    visitor closes over.  The result is [Next] when the iteration ran to its
    end. *)
Fixpoint rangeWith {K V S : Type} (visit : S → K → V → S * ctl)
    (kvs : list (K * V)) (s : S) : S * ctl :=
  match kvs with
  | [] => (s, Next)
  | (k, v) :: rest =>
      match visit s k v with
      | (s', Next) => rangeWith visit rest s'
      | (s', c) => (s', c)
      end
  end.

(** ** Cluster members *)

Record Member : Type := mkMember {
  Name : string;
  Birthdate : Z;
  ID : Z
}.

(** ** The storage engine (package [storage]) *)

Class StorageEngine : Type := {
  Entry : Type;
  Storage : Type;
  Len : Storage → Z;
  Get : Storage → Z → result Entry;
  Put : Storage → Z → Entry → Storage * option Error;
  Range : Storage → list (Z * Entry);
  Export : Storage → result (list Byte.byte);
  Import : list Byte.byte → result Storage
}.

Section Model.
Context {SE : StorageEngine}.

(** [type version struct]: only the [entry] field is set by this file. *)
Record version : Type := mkVersion { entry : Entry }.

(** ** Data maps, partitions, the node *)

Record cache : Type := mkCache {
  accessLog : option (gmap Z Z)
}.

Record dmap : Type := mkDMap {
  dm_cache : option cache;
  storage : Storage
}.

Record dmapbox : Type := mkBox {
  PartID : Z;
  Backup : bool;
  BoxName : string;
  Payload : list Byte.byte;
  AccessLog : option (gmap Z Z)
}.

Record partition : Type := mkPartition {
  part_id : Z;
  part_backup : bool;
  part_m : gmap string dmap;
  part_owners : list Member
}.

Record Config : Type := mkConfig {
  PartitionCount : Z;
  ReplicaCount : Z
}.

(** A goroutine started with [go]. *)
Inductive goroutine : Type :=
| compactTables (name : string).

Record Olric : Type := mkOlric {
  this : Member;
  config : Config;
  partitions : gmap Z partition;
  backups : gmap Z partition;
  wg : nat;
  spawned : list goroutine
}.

Inductive OpCode : Type := OpMoveDMap.

Record SystemMessage : Type := mkMessage {
  Op : OpCode;
  Value : list Byte.byte
}.

(** What a handler leaves in the response [w]. *)
Inductive Response : Type :=
| StatusOK
| errorResponse (err : Error).

(** ** Collaborators outside the file *)

Class Collaborators : Type := {
  Net : Type;
  sortVersions : list version → list version;
  cmpMembersByID : Member → Member → bool;
  cmpMembersByName : Member → Member → bool;
  memberString : Member → string;
  Marshal : dmapbox → result (list Byte.byte);
  Unmarshal : list Byte.byte → result dmapbox;
  requestTo : Net → string → SystemMessage → Net * result SystemMessage;
  FindMemberByID : Z → result Member;
  createDMap : string → result dmap;
  part_owner : partition → ret Member;
  isOperable : Olric → option Error;
  MinimumReplicaCount : Z;
  Errorf : Z → bool → Member → string;
  (* the value the n-th [atomic.LoadUint64(&routingSignature)] observes *)
  routingSignature : nat → Z;
  (* the answer to the n-th [db.isAlive()] *)
  aliveness : nat → bool
}.

Context {CO : Collaborators}.

Definition part_store (part : partition) (name : string) (dm : dmap) : partition :=
  mkPartition (part_id part) (part_backup part)
    (<[name := dm]> (part_m part)) (part_owners part).

Definition part_delete (part : partition) (name : string) : partition :=
  mkPartition (part_id part) (part_backup part)
    (delete name (part_m part)) (part_owners part).

(** Modelled from the spec: [partition.length] is not in the excerpt; it is
    the number of maps currently resident. *)
Definition part_length (part : partition) : Z := Z.of_nat (size (part_m part)).

(** Modelled from the spec: [getOrCreateDMap] is not in the excerpt; it
    locates the named data map in the partition's map table or creates it
    there.  [createDMap] builds the fresh map (storage and cache
    configuration). *)
Definition getOrCreateDMap (part : partition) (name : string)
    : partition * result dmap :=
  match part_m part !! name with
  | Some dm => (part, Ok dm)
  | None =>
      match createDMap name with
      | Ok dm => (part_store part name dm, Ok dm)
      | Err err => (part, Err err)
      end
  end.

(** ** moveDMap *)

(** The [dmapbox] that [moveDMap] packs: the access log is copied only when
    the map has a cache with a non-nil log. *)
Definition packDMap (part : partition) (name : string) (dm : dmap)
    (payload : list Byte.byte) : dmapbox :=
  mkBox (part_id part) (part_backup part) name payload
    (match dm_cache dm with
     | Some c =>
         match accessLog c with
         | Some log => Some log
         | None => None
         end
     | None => None
     end).

Definition moveDMap (net : Net) (part : partition) (name : string) (dm : dmap)
    (owner : Member) : Net * partition * option Error :=
  match Export (storage dm) with
  | Err err => (net, part, Some err)
  | Ok payload =>
      let data := packDMap part name dm payload in
      match Marshal data with
      | Err err => (net, part, Some err)
      | Ok value =>
          let req := mkMessage OpMoveDMap value in
          match requestTo net (memberString owner) req with
          | (net', Err err) => (net', part, Some err)
          | (net', Ok _) => (net', part_delete part name, None)
          end
      end
  end.

(** The three steps of a move all went through. *)
Definition moveSucceeds (net : Net) (part : partition) (name : string)
    (dm : dmap) (owner : Member) : Prop :=
  ∃ payload value net' resp,
    Export (storage dm) = Ok payload ∧
    Marshal (packDMap part name dm payload) = Ok value ∧
    requestTo net (memberString owner) (mkMessage OpMoveDMap value)
      = (net', Ok resp).

(** The error of the first step of a move that fails. *)
Definition moveFailsWith (net : Net) (part : partition) (name : string)
    (dm : dmap) (owner : Member) (err : Error) : Prop :=
  Export (storage dm) = Err err ∨
  (∃ payload,
     Export (storage dm) = Ok payload ∧
     (Marshal (packDMap part name dm payload) = Err err ∨
      ∃ value net',
        Marshal (packDMap part name dm payload) = Ok value ∧
        requestTo net (memberString owner) (mkMessage OpMoveDMap value)
          = (net', Err err))).

(** ** selectVersionForMerge *)

Definition selectVersionForMerge (dm : dmap) (hkey : Z) (ent : Entry)
    : ret (result Entry) :=
  match Get (storage dm) hkey with
  | Err err =>
      if decide (err = ErrKeyNotFound) then Ret (Ok ent)
      else Ret (Err err)
  | Ok current =>
      let versions := sortVersions [mkVersion current; mkVersion ent] in
      match versions !! 0%nat with
      | Some v => Ret (Ok (entry v))
      | None => Panic "index out of range [0] with length 0"
      end
  end.

(** ** mergeDMaps *)

(** The loop over [data.AccessLog]: a key is written only when the local log
    has no entry for it. *)
Definition mergeAccessLog (local incoming : gmap Z Z) : gmap Z Z :=
  map_fold
    (λ hkey t acc,
       match acc !! hkey with
       | Some _ => acc
       | None => <[hkey := t]> acc
       end)
    local incoming.

Definition mergeCache (dm : dmap) (data : dmapbox) : dmap :=
  match dm_cache dm with
  | Some c =>
      match accessLog c with
      | Some log =>
          mkDMap
            (Some (mkCache (Some (mergeAccessLog log (default ∅ (AccessLog data))))))
            (storage dm)
      | None => dm
      end
  | None => dm
  end.

(** The variables the visitor of [str.Range] closes over. *)
Record mergeEnv : Type := mkMergeEnv {
  me_db : Olric;
  me_dm : dmap;
  mergeErr : option Error
}.

Definition spawnCompaction (db : Olric) (name : string) : Olric :=
  mkOlric (this db) (config db) (partitions db) (backups db)
    (S (wg db)) (spawned db ++ [compactTables name]).

Definition mergeVisit (name : string) (env : mergeEnv) (hkey : Z) (ent : Entry)
    : mergeEnv * ctl :=
  match selectVersionForMerge (me_dm env) hkey ent with
  | Panic why => (env, Crash why)
  | Ret (Err err) => (mkMergeEnv (me_db env) (me_dm env) (Some err), Stop)
  | Ret (Ok winner) =>
      let '(str', putErr) := Put (storage (me_dm env)) hkey winner in
      let dm' := mkDMap (dm_cache (me_dm env)) str' in
      match putErr with
      | Some err =>
          if decide (err = ErrFragmented)
          then (mkMergeEnv (spawnCompaction (me_db env) name) dm' None, Next)
          else (mkMergeEnv (me_db env) dm' (Some err), Stop)
      | None => (mkMergeEnv (me_db env) dm' None, Next)
      end
  end.

Definition mergeDMaps (db : Olric) (part : partition) (data : dmapbox)
    : Olric * partition * ret (option Error) :=
  match getOrCreateDMap part (BoxName data) with
  | (part, Err err) => (db, part, Ret (Some err))
  | (part, Ok dm) =>
      (* defer part.m.Store(data.Name, dm) *)
      match Import (Payload data) with
      | Err err => (db, part_store part (BoxName data) dm, Ret (Some err))
      | Ok str =>
          let dm := mergeCache dm data in
          if decide (Len (storage dm) = 0)
          then (db, part_store part (BoxName data) (mkDMap (dm_cache dm) str),
                Ret None)
          else
            let '(env, c) :=
              rangeWith (mergeVisit (BoxName data)) (Range str)
                (mkMergeEnv db dm None) in
            (me_db env, part_store part (BoxName data) (me_dm env),
             match c with
             | Crash why => Panic why
             | _ => Ret (mergeErr env)
             end)
      end
  end.

(** ** checkOwnership and moveDMapOperation *)

Definition checkOwnership (db : Olric) (part : partition) : bool :=
  existsb (λ owner, cmpMembersByID owner (this db)) (part_owners part).

Definition partitionOf (db : Olric) (backup : bool) (partID : Z)
    : option partition :=
  if backup then backups db !! partID else partitions db !! partID.

Definition setPartition (db : Olric) (backup : bool) (partID : Z)
    (part : partition) : Olric :=
  if backup
  then mkOlric (this db) (config db) (partitions db)
         (<[partID := part]> (backups db)) (wg db) (spawned db)
  else mkOlric (this db) (config db) (<[partID := part]> (partitions db))
         (backups db) (wg db) (spawned db).

Definition moveDMapOperation (db : Olric) (r : SystemMessage)
    : Olric * ret Response :=
  match isOperable db with
  | Some err => (db, Ret (errorResponse err))
  | None =>
      match Unmarshal (Value r) with
      | Err err => (db, Ret (errorResponse err))
      | Ok box =>
          match partitionOf db (Backup box) (PartID box) with
          | None => (db, Panic "nil pointer dereference")
          | Some part =>
              if negb (checkOwnership db part)
              then
                let err :=
                  ErrWrap (Errorf (PartID box) (Backup box) (this db))
                    ErrInvalidArgument in
                (db, Ret (errorResponse err))
              else
                let '(db', part', merged) := mergeDMaps db part box in
                let db'' := setPartition db' (Backup box) (PartID box) part' in
                match merged with
                | Panic why => (db'', Panic why)
                | Ret (Some err) => (db'', Ret (errorResponse err))
                | Ret None => (db'', Ret StatusOK)
                end
          end
      end
  end.

(** What the handler answers after the merge. *)
Definition respond (merged : ret (option Error)) : ret Response :=
  match merged with
  | Panic why => Panic why
  | Ret (Some err) => Ret (errorResponse err)
  | Ret None => Ret StatusOK
  end.

(** ** The rebalancer passes

    A pass runs against an environment that changes under it: the routing
    signature is republished by the membership layer and the node may be shut
    down.  The passes read both through [atomic.LoadUint64] and [isAlive];
    the [n]-th read returns what the oracle of [Collaborators] says, and every
    read and every move is appended to [trace]. *)

Inductive Event : Type :=
| EvLoadSignature (v : Z)
| EvIsAlive (b : bool)
| EvMove (partID : Z) (backup : bool) (name : string) (owner : Member)
    (err : option Error).

Record World : Type := mkWorld {
  node : Olric;
  network : Net;
  loads : nat;
  probes : nat;
  trace : list Event
}.

Definition loadRoutingSignature (w : World) : Z * World :=
  let v := routingSignature (loads w) in
  (v, mkWorld (node w) (network w) (S (loads w)) (probes w)
        (trace w ++ [EvLoadSignature v])).

Definition isAlive (w : World) : bool * World :=
  let b := aliveness (probes w) in
  (b, mkWorld (node w) (network w) (loads w) (S (probes w))
        (trace w ++ [EvIsAlive b])).

Definition setNodePartition (w : World) (backup : bool) (partID : Z)
    (part : partition) : World :=
  mkWorld (setPartition (node w) backup partID part) (network w)
    (loads w) (probes w) (trace w).

(** The visitor both passes hand to [part.m.Range]: move one map, then ask
    whether the routing signature is still the snapshot. *)
Definition moveVisit (rsign : Z) (partID : Z) (owner : Member)
    (st : World * partition) (name : string) (dm : dmap)
    : (World * partition) * ctl :=
  let '(w, part) := st in
  let '(net', part', err) := moveDMap (network w) part name dm owner in
  let w1 :=
    mkWorld (node w) net' (loads w) (probes w)
      (trace w ++ [EvMove partID (part_backup part) name owner err]) in
  let '(v, w2) := loadRoutingSignature w1 in
  ((w2, part'), if decide (rsign = v) then Next else Stop).

Fixpoint primaryLoop (rsign : Z) (partIDs : list Z) (w : World)
    : World * ret unit :=
  match partIDs with
  | [] => (w, Ret ())
  | partID :: rest =>
      let '(alive, w) := isAlive w in
      if negb alive then (w, Ret ())
      else
        let '(v, w) := loadRoutingSignature w in
        if decide (rsign ≠ v) then (w, Ret ())
        else
          match partitions (node w) !! partID with
          | None => (w, Panic "nil pointer dereference")
          | Some part =>
              if decide (part_length part = 0) then primaryLoop rsign rest w
              else
                match part_owner part with
                | Panic why => (w, Panic why)
                | Ret owner =>
                    if cmpMembersByName owner (this (node w))
                    then primaryLoop rsign rest w
                    else
                      let '((w, part'), _) :=
                        rangeWith (moveVisit rsign partID owner)
                          (map_to_list (part_m part)) (w, part) in
                      primaryLoop rsign rest
                        (setNodePartition w false partID part')
                end
          end
  end.

Definition rebalancePrimaryPartitions (w : World) : World * ret unit :=
  let '(rsign, w) := loadRoutingSignature w in
  primaryLoop rsign (seqZ 0 (PartitionCount (config (node w)))) w.

(** [for i := len(owners) - 1; i > offset; i--]: the loop variable is
    [i = k - 1]; the positions at which the body runs, in order.  Indexing a
    slice at [-1] panics. *)
Fixpoint tailPositions (offset : Z) (k : nat) : ret (list Z) :=
  if decide (Z.of_nat k - 1 > offset) then
    match k with
    | O => Panic "index out of range [-1]"
    | S k' =>
        match tailPositions offset k' with
        | Ret tail => Ret (Z.of_nat k' :: tail)
        | Panic why => Panic why
        end
    end
  else Ret [].

(** The same loop with its body: collect the ids of the owners in the tail
    that are not this node (by name). *)
Fixpoint tailOwnerIDs (db : Olric) (owners : list Member) (offset : Z)
    (k : nat) (ids : list Z) : ret (list Z) :=
  if decide (Z.of_nat k - 1 > offset) then
    match k with
    | O => Panic "index out of range [-1]"
    | S k' =>
        match owners !! k' with
        | None => Panic "index out of range"
        | Some owner =>
            if cmpMembersByName (this db) owner
            then tailOwnerIDs db owners offset k' ids
            else tailOwnerIDs db owners offset k' (ids ++ [ID owner])
        end
    end
  else Ret ids.

Fixpoint idsLoop (rsign : Z) (partID : Z) (ids : list Z)
    (st : World * partition) : World * partition :=
  match ids with
  | [] => st
  | id :: rest =>
      let '(w, part) := st in
      let '(alive, w) := isAlive w in
      if negb alive then (w, part)
      else
        let '(v, w) := loadRoutingSignature w in
        if decide (rsign ≠ v) then (w, part)
        else
          match FindMemberByID id with
          | Err _ => idsLoop rsign partID rest (w, part)
          | Ok owner =>
              let '(st', _) :=
                rangeWith (moveVisit rsign partID owner)
                  (map_to_list (part_m part)) (w, part) in
              idsLoop rsign partID rest st'
          end
  end.

Fixpoint backupLoop (rsign : Z) (partIDs : list Z) (w : World)
    : World * ret unit :=
  match partIDs with
  | [] => (w, Ret ())
  | partID :: rest =>
      let '(alive, w) := isAlive w in
      if negb alive then (w, Ret ())
      else
        match backups (node w) !! partID with
        | None => (w, Panic "nil pointer dereference")
        | Some part =>
            if decide (part_length part = 0) then backupLoop rsign rest w
            else
              let owners := part_owners part in
              let replicas := ReplicaCount (config (node w)) in
              if decide (Z.of_nat (length owners) = replicas - 1)
              then backupLoop rsign rest w
              else
                let offset := Z.of_nat (length owners) - 1 - (replicas - 1) in
                match tailOwnerIDs (node w) owners offset (length owners) [] with
                | Panic why => (w, Panic why)
                | Ret ids =>
                    let '(w, part') := idsLoop rsign partID ids (w, part) in
                    backupLoop rsign rest (setNodePartition w true partID part')
                end
        end
  end.

Definition rebalanceBackupPartitions (w : World) : World * ret unit :=
  let '(rsign, w) := loadRoutingSignature w in
  backupLoop rsign (seqZ 0 (PartitionCount (config (node w)))) w.

Definition rebalancer (w : World) : World * ret unit :=
  match isOperable (node w) with
  | Some _ => (w, Ret ())
  | None =>
      match rebalancePrimaryPartitions w with
      | (w, Panic why) => (w, Panic why)
      | (w, Ret _) =>
          if decide (ReplicaCount (config (node w)) > MinimumReplicaCount)
          then rebalanceBackupPartitions w
          else (w, Ret ())
      end
  end.

End Model.

(** ** Contracts of the collaborators

    What the merge relies on from the storage engine: a fragment is a mapping
    from hash keys to entries, [Range] enumerates it without repeating a key,
    a [Put] stores its entry and reports at most the fragmented signal. *)

Class StorageContract (SE : StorageEngine) : Prop := {
  range_get : ∀ s h e, (h, e) ∈ Range s → Get s h = Ok e;
  range_nodup : ∀ s, NoDup (Range s).*1;
  put_signal : ∀ s h e s' r,
    Put s h e = (s', r) → r = None ∨ r = Some ErrFragmented;
  get_put_eq : ∀ s h e s' r, Put s h e = (s', r) → Get s' h = Ok e;
  get_put_ne : ∀ s h e s' r h',
    Put s h e = (s', r) → h ≠ h' → Get s' h' = Get s h';
  len_put : ∀ s h e s' r, Put s h e = (s', r) → Len s' ≠ 0
}.

(** [sortVersions] sorts: what it returns is a rearrangement of its input. *)
Class ResolverContract {SE : StorageEngine} (CO : Collaborators) : Prop := {
  sortVersions_perm : ∀ vs, sortVersions vs ≡ₚ vs
}.

(** The access log of a data map, empty when it has none. *)
Definition logOf {SE : StorageEngine} (dm : dmap) : gmap Z Z :=
  match dm_cache dm with
  | Some c => default ∅ (accessLog c)
  | None => ∅
  end.


Definition isMove (ev : Event) : bool :=
  match ev with
  | EvMove _ _ _ _ _ => true
  | _ => false
  end.

Definition isMoveOf (partID : Z) (ev : Event) : bool :=
  match ev with
  | EvMove p _ _ _ _ => bool_decide (p = partID)
  | _ => false
  end.

(** Where an error returned by [mergeDMaps] can come from: creating the map,
    importing the payload, a lookup that fails with something else than
    key-not-found, or a put that fails with something else than the
    fragmented signal. *)
Definition mergeErrorSource {SE : StorageEngine} {CO : Collaborators}
    (data : dmapbox) (err : Error) : Prop :=
  createDMap (BoxName data) = Err err ∨
  Import (Payload data) = Err err ∨
  (∃ s hkey, Get s hkey = Err err ∧ err ≠ ErrKeyNotFound) ∨
  (∃ s hkey winner s', Put s hkey winner = (s', Some err) ∧ err ≠ ErrFragmented).

(** The statement of the access-log rule without any condition on the local
    map: after a merge, every hkey of the incoming log that the local log
    did not have carries the incoming timestamp. *)
Definition incomingLogAlwaysMerged {SE : StorageEngine} {CO : Collaborators}
    : Prop :=
  ∀ (db : Olric) (part : partition) (data : dmapbox) (dm dm' : dmap),
    part_m part !! BoxName data = Some dm →
    part_m (mergeDMaps db part data).1.2 !! BoxName data = Some dm' →
    ∀ hkey t,
      default ∅ (AccessLog data) !! hkey = Some t →
      logOf dm !! hkey = None →
      logOf dm' !! hkey = Some t.

(** ** Reading a trace

    [rsign] is the signature a pass snapshotted.  A stretch of events is
    [calm] when every load in it still returned [rsign], [moveFree] when no
    move was started in it.  A world is [tripped] when the last load of the
    signature returned something else than [rsign]. *)

Definition calm (rsign : Z) (l : list Event) : Prop :=
  Forall (λ ev, ∀ v, ev = EvLoadSignature v → v = rsign) l.

Definition moveFree (l : list Event) : Prop :=
  Forall (λ ev, isMove ev = false) l.

(** A calm stretch followed by at most [n] events without a move. *)
Definition settles (rsign : Z) (n : nat) (l : list Event) : Prop :=
  ∃ c q, l = c ++ q ∧ calm rsign c ∧ moveFree q ∧ (length q ≤ n)%nat.

(** A calm stretch followed by events without a move. *)
Definition winds_down (rsign : Z) (l : list Event) : Prop :=
  ∃ c q, l = c ++ q ∧ calm rsign c ∧ moveFree q.

Definition tripped {SE : StorageEngine} {CO : Collaborators}
    (rsign : Z) (w : World) : Prop :=
  routingSignature (pred (loads w)) ≠ rsign.

(** From the [n0]-th load on, a signature that has left [rsign] does not
    come back to it (the routing epoch only advances). *)
Definition persistent {SE : StorageEngine} {CO : Collaborators}
    (n0 : nat) (rsign : Z) : Prop :=
  ∀ n m, (n0 ≤ n)%nat → (n ≤ m)%nat →
    routingSignature n ≠ rsign → routingSignature m ≠ rsign.

(** The owners list of a backup partition of the node. *)
Definition backupOwners {SE : StorageEngine} {CO : Collaborators}
    (w : World) (partID : Z) : option (list Member) :=
  part_owners <$> backups (node w) !! partID.

(** The entry [winner] stored under [hkey] is settled against the incoming
    entry [ent]: the storage holds it, and the version sort of the pair puts
    it first again. *)
Definition settled {SE : StorageEngine} {CO : Collaborators}
    (s : Storage) (hkey : Z) (ent : Entry) : Prop :=
  ∃ winner, Get s hkey = Ok winner ∧
    sortVersions [mkVersion winner; mkVersion ent] !! 0%nat
      = Some (mkVersion winner).


(** ** A table-backed storage engine

    A small engine that meets [StorageContract], used to run the code on
    concrete clusters: a fragment is a table of cells plus the free room of
    its arena; a [Put] into a full arena grows it and reports
    [ErrFragmented].  A cell is exported as three bytes. *)

Module Arena.

Record Cell : Type := mkCell {
  Timestamp : Z;
  Data : Z
}.

Record Table : Type := mkTable {
  cells : gmap Z Cell;
  room : nat
}.

Definition byteOf (z : Z) : option Byte.byte :=
  if decide (0 ≤ z) then Byte.of_N (Z.to_N z) else None.

Definition ofByte (b : Byte.byte) : Z := Z.of_N (Byte.to_N b).

Definition get (t : Table) (hkey : Z) : result Cell :=
  match cells t !! hkey with
  | Some c => Ok c
  | None => Err ErrKeyNotFound
  end.

Definition put (t : Table) (hkey : Z) (c : Cell) : Table * option Error :=
  match room t with
  | O => (mkTable (<[hkey := c]> (cells t)) (2 * size (cells t)), Some ErrFragmented)
  | S n => (mkTable (<[hkey := c]> (cells t)) n, None)
  end.

Definition encodeCell (kv : Z * Cell) : option (list Byte.byte) :=
  match byteOf kv.1, byteOf (Timestamp kv.2), byteOf (Data kv.2) with
  | Some a, Some b, Some c => Some [a; b; c]
  | _, _, _ => None
  end.

Fixpoint encodeCells (kvs : list (Z * Cell)) : option (list Byte.byte) :=
  match kvs with
  | [] => Some []
  | kv :: rest =>
      match encodeCell kv, encodeCells rest with
      | Some bs, Some more => Some (bs ++ more)
      | _, _ => None
      end
  end.

Definition export (t : Table) : result (list Byte.byte) :=
  match encodeCells (map_to_list (cells t)) with
  | Some bs => Ok bs
  | None => Err (ErrOther "cell does not fit")
  end.

Fixpoint decodeCells (bs : list Byte.byte) (acc : gmap Z Cell)
    : option (gmap Z Cell) :=
  match bs with
  | [] => Some acc
  | a :: b :: c :: rest =>
      decodeCells rest (<[ofByte a := mkCell (ofByte b) (ofByte c)]> acc)
  | _ => None
  end.

Definition import (bs : list Byte.byte) : result Table :=
  match decodeCells bs ∅ with
  | Some m => Ok (mkTable m 4)
  | None => Err (ErrOther "malformed payload")
  end.

Definition engine : StorageEngine := {|
  Entry := Cell;
  Storage := Table;
  Len := λ t, Z.of_nat (size (cells t));
  Get := get;
  Put := put;
  Range := λ t, map_to_list (cells t);
  Export := export;
  Import := import
|}.

End Arena.

(** ** A three-member cluster over the table-backed engine

    Concrete collaborators: a length-prefixed codec for [dmapbox], a network
    that records what it delivers and cannot reach the address [down], a
    stable descending sort on timestamps, members compared by [ID] and by
    [Name].  The signature and liveness oracles are arguments. *)

Module Cluster.

#[local] Existing Instance Arena.engine.

Definition alice : Member := mkMember "alice" 1 11.
Definition bob : Member := mkMember "bob" 1 22.
Definition carol : Member := mkMember "carol" 1 33.
(** [bob] after a restart: same name, later birthdate, another id. *)
Definition bob2 : Member := mkMember "bob" 2 44.

Fixpoint insertVersion (v : version) (sorted : list version) : list version :=
  match sorted with
  | [] => [v]
  | x :: xs =>
      if decide (Arena.Timestamp (entry x) < Arena.Timestamp (entry v))
      then v :: x :: xs
      else x :: insertVersion v xs
  end.

Definition sortByTimestamp (vs : list version) : list version :=
  foldr insertVersion [] vs.

Fixpoint encodeLog (kvs : list (Z * Z)) : option (list Byte.byte) :=
  match kvs with
  | [] => Some []
  | (k, t) :: rest =>
      match Arena.byteOf k, Arena.byteOf t, encodeLog rest with
      | Some a, Some b, Some more => Some (a :: b :: more)
      | _, _, _ => None
      end
  end.

Fixpoint decodeLog (n : nat) (bs : list Byte.byte) (acc : gmap Z Z)
    : option (gmap Z Z * list Byte.byte) :=
  match n with
  | O => Some (acc, bs)
  | S n' =>
      match bs with
      | a :: b :: rest =>
          decodeLog n' rest (<[Arena.ofByte a := Arena.ofByte b]> acc)
      | _ => None
      end
  end.

Definition marshal (box : dmapbox) : result (list Byte.byte) :=
  let name := String.list_byte_of_string (BoxName box) in
  let log := map_to_list (default ∅ (AccessLog box)) in
  match Arena.byteOf (PartID box),
        Arena.byteOf (Z.of_nat (length name)),
        Arena.byteOf (Z.of_nat (length log)),
        encodeLog log with
  | Some p, Some n, Some k, Some l =>
      Ok (p :: (if Backup box then Byte.x01 else Byte.x00) :: n :: name
            ++ k :: l ++ Payload box)
  | _, _, _, _ => Err (ErrOther "value does not fit")
  end.

Definition unmarshal (bs : list Byte.byte) : result dmapbox :=
  match bs with
  | p :: b :: n :: rest =>
      let n := Z.to_nat (Arena.ofByte n) in
      match drop n rest with
      | k :: rest' =>
          match decodeLog (Z.to_nat (Arena.ofByte k)) rest' ∅ with
          | Some (log, payload) =>
              if decide (n ≤ length rest)%nat
              then Ok (mkBox (Arena.ofByte p)
                         (negb (Byte.eqb b Byte.x00))
                         (String.string_of_list_byte (take n rest))
                         payload
                         (if Byte.eqb k Byte.x00 then None else Some log))
              else Err (ErrOther "short name")
          | None => Err (ErrOther "short access log")
          end
      | [] => Err (ErrOther "short message")
      end
  | _ => Err (ErrOther "short header")
  end.

Definition deliver (net : list (string * SystemMessage)) (addr : string)
    (req : SystemMessage)
    : list (string * SystemMessage) * result SystemMessage :=
  if decide (addr = "down") then (net, Err (ErrOther "connection refused"))
  else (net ++ [(addr, req)], Ok (mkMessage OpMoveDMap [])).

Definition findMember (id : Z) : result Member :=
  match list_find (λ mb, ID mb = id) [alice; bob; carol; bob2] with
  | Some (_, mb) => Ok mb
  | None => Err (ErrOther "member not found")
  end.

Definition freshDMap (name : string) : result dmap :=
  if decide (name = "") then Err ErrInvalidArgument
  else Ok (mkDMap (Some (mkCache (Some ∅))) (Arena.mkTable ∅ 4)).

Definition firstOwner (part : partition) : ret Member :=
  match part_owners part with
  | o :: _ => Ret o
  | [] => Panic "owners list cannot be empty"
  end.

Definition bootstrapped (db : Olric) : option Error :=
  if decide (size (partitions db) = 0%nat)
  then Some (ErrOther "not bootstrapped")
  else None.

Definition collaborators (signature : nat → Z) (alive : nat → bool)
    : Collaborators := {|
  Net := list (string * SystemMessage);
  sortVersions := sortByTimestamp;
  cmpMembersByID := λ a b, bool_decide (ID a = ID b);
  cmpMembersByName := λ a b, bool_decide (Name a = Name b);
  memberString := Name;
  Marshal := marshal;
  Unmarshal := unmarshal;
  requestTo := deliver;
  FindMemberByID := findMember;
  createDMap := freshDMap;
  part_owner := firstOwner;
  isOperable := bootstrapped;
  MinimumReplicaCount := 1;
  Errorf := λ _ _ mb, "partition does not belong to " +:+ Name mb;
  routingSignature := signature;
  aliveness := alive
|}.

(** A quiet environment: the signature never changes, the node stays up. *)
Definition quiet : Collaborators := collaborators (λ _, 7) (λ _, true).

(** Sample states.  The map [m] of partition 0 holds the cell of hkey 1
    written at time 20; the incoming payload carries hkey 1 written at time
    10 and an access log for the hkeys 1 and 2. *)

Definition loggedMap : dmap :=
  mkDMap (Some (mkCache (Some {[1 := 100]})))
    (Arena.mkTable {[1 := Arena.mkCell 20 5]} 4).

(** The same map on a node that has no cache configured for it. *)
Definition plainMap : dmap :=
  mkDMap None (Arena.mkTable {[1 := Arena.mkCell 20 5]} 4).

(** The same map with its arena full: the next put reports fragmentation. *)
Definition fullMap : dmap :=
  mkDMap (Some (mkCache (Some {[1 := 100]})))
    (Arena.mkTable {[1 := Arena.mkCell 20 5]} 0).

Definition partWith (backup : bool) (maps : gmap string dmap)
    (owners : list Member) : partition :=
  mkPartition 0 backup maps owners.

Definition nodeOf (me : Member) (count replicas : Z)
    (prim back : gmap Z partition) : Olric :=
  mkOlric me (mkConfig count replicas) prim back 0 [].

Definition incoming : dmapbox :=
  mkBox 0 false "m" [Byte.x01; Byte.x0a; Byte.x07]
    (Some {[1 := 50; 2 := 75]}).


Definition request (box : dmapbox) : SystemMessage :=
  mkMessage OpMoveDMap
    (match marshal box with Ok value => value | Err _ => [] end).

(** A network that has delivered nothing yet. *)
Definition idle : list (string * SystemMessage) := [].

(** A member whose address cannot be reached. *)
Definition dave : Member := mkMember "down" 1 55.

(** A signature that changes after two loads, and a node that stays up. *)
Definition flipping : Collaborators :=
  collaborators (λ n, if (n <? 2)%nat then 7 else 8) (λ _, true).

(** [alice] still holds the maps [m] and [n] of partition 0 and the map [m]
    of partition 1; the routing table gives both partitions to [bob]. *)
Definition handoff : gmap Z partition :=
  {[ 0 := mkPartition 0 false {["m" := loggedMap; "n" := plainMap]} [bob];
     1 := mkPartition 1 false {["m" := loggedMap]} [bob] ]}.

Definition worldOf {CO : Collaborators} (db : Olric) (net : Net) : World :=
  mkWorld db net 0 0 [].

End Cluster.

(** ** More notions for reading a pass *)

(** The move of the map [name] of partition [partID] was acknowledged. *)
Definition acked (partID : Z) (name : string) (l : list Event) : Prop :=
  ∃ backup owner, EvMove partID backup name owner None ∈ l.

(** The entry a merge leaves under a hash key, read off what the local
    storage held before: the incoming entry when the key was not found,
    position 0 of the sorted pair otherwise. *)
Definition merged_entry {SE : StorageEngine} {CO : Collaborators}
    (before : result Entry) (ent : Entry) (after : result Entry) : Prop :=
  match before with
  | Ok current =>
      ∃ v, sortVersions [mkVersion current; mkVersion ent] !! 0%nat = Some v ∧
           after = Ok (entry v)
  | Err err => err = ErrKeyNotFound ∧ after = Ok ent
  end.

(** A move of the primary pass leaves from a partition of the node that
    holds the map and whose owner, by name, is another node: the move goes to
    that owner. *)
Definition shipsToOwner {SE : StorageEngine} {CO : Collaborators}
    (w : World) (ev : Event) : Prop :=
  match ev with
  | EvMove partID backup name owner _ =>
      ∃ part, partitions (node w) !! partID = Some part ∧
        backup = part_backup part ∧
        part_owner part = Ret owner ∧
        cmpMembersByName owner (this (node w)) = false ∧
        is_Some (part_m part !! name)
  | _ => True
  end.

(** What a pass did to the partition [partID]: the owners are the same, the
    maps whose move was acknowledged are gone, the others are as they
    were. *)
Definition handedOver {SE : StorageEngine}
    (before after : option partition) (partID : Z) (l : list Event) : Prop :=
  match before with
  | Some part =>
      ∃ part', after = Some part' ∧
        part_owners part' = part_owners part ∧
        ∀ name,
          (acked partID name l → part_m part' !! name = None) ∧
          (¬ acked partID name l → part_m part' !! name = part_m part !! name)
  | None => after = None
  end.

(** A move of the backup pass leaves from a backup partition of the node
    that holds the map, and goes to the member that the discovery layer
    returns for the id of one of the partition's owners that is, by name,
    another node. *)
Definition shipsToReplica {SE : StorageEngine} {CO : Collaborators}
    (w : World) (ev : Event) : Prop :=
  match ev with
  | EvMove partID backup name owner _ =>
      ∃ part member, backups (node w) !! partID = Some part ∧
        backup = part_backup part ∧
        is_Some (part_m part !! name) ∧
        member ∈ part_owners part ∧
        cmpMembersByName (this (node w)) member = false ∧
        FindMemberByID (ID member) = Ok owner
  | _ => True
  end.

(** ** Shutdown *)

(** Nothing follows a probe that found the node down. *)
Definition haltsWhenDown (l : list Event) : Prop :=
  ∀ l1 l2, l = l1 ++ EvIsAlive false :: l2 → l2 = [].

(** At most one more probe, itself negative, follows a probe that found the
    node down. *)
Definition haltsSoonWhenDown (l : list Event) : Prop :=
  ∀ l1 l2, l = l1 ++ EvIsAlive false :: l2 →
    l2 = [] ∨ l2 = [EvIsAlive false].

(** No probe of the stretch found the node down. *)
Definition allUp (l : list Event) : Prop :=
  Forall (λ ev, ev ≠ EvIsAlive false) l.

(** The last probe, made by the running pass, found the node down. *)
Definition down {SE : StorageEngine} {CO : Collaborators}
    (n0 : nat) (w : World) : Prop :=
  (n0 < probes w)%nat ∧ aliveness (pred (probes w)) = false.

(** From the [n0]-th probe on, a node that is down stays down. *)
Definition staysDown {SE : StorageEngine} {CO : Collaborators}
    (n0 : nat) : Prop :=
  ∀ n m, (n0 ≤ n)%nat → (n ≤ m)%nat →
    aliveness n = false → aliveness m = false.


(** ** More sample states *)

(** A node that is up at the first probe and down from the second on; the
    signature never changes. *)
Definition fading : Collaborators :=
  Cluster.collaborators (λ _, 7) (λ n, (n <? 1)%nat).

(** [alice] still holds the maps [m] and [n] of partition 0, which the
    routing table gives to [bob], and the map [m] of partition 1, which it
    gives to a member that cannot be reached. *)
Definition stuck : gmap Z partition :=
  {[ 0 := mkPartition (SE := Arena.engine) 0 false
            {["m" := Cluster.loggedMap; "n" := Cluster.plainMap]}
            [Cluster.bob];
     1 := mkPartition (SE := Arena.engine) 1 false
            {["m" := Cluster.loggedMap]} [Cluster.dave] ]}.

(** [alice] holds backups of the map [m] in the partitions 0 and 1; both
    have the owners [alice] and [bob]. *)
Definition replicas : gmap Z partition :=
  {[ 0 := mkPartition (SE := Arena.engine) 0 true
            {["m" := Cluster.loggedMap]} [Cluster.alice; Cluster.bob];
     1 := mkPartition (SE := Arena.engine) 1 true
            {["m" := Cluster.loggedMap]} [Cluster.alice; Cluster.bob] ]}.
(** * Properties of the move / merge core *)

Section Properties.
Context {SE : StorageEngine} {CO : Collaborators}.

(** ** moveDMap *)

Lemma moveDMap_cases net part name dm owner :
  (∃ err, Export (storage dm) = Err err ∧
     moveDMap net part name dm owner = (net, part, Some err)) ∨
  (∃ payload err, Export (storage dm) = Ok payload ∧
     Marshal (packDMap part name dm payload) = Err err ∧
     moveDMap net part name dm owner = (net, part, Some err)) ∨
  (∃ payload value net' err, Export (storage dm) = Ok payload ∧
     Marshal (packDMap part name dm payload) = Ok value ∧
     requestTo net (memberString owner) (mkMessage OpMoveDMap value)
       = (net', Err err) ∧
     moveDMap net part name dm owner = (net', part, Some err)) ∨
  (∃ payload value net' resp, Export (storage dm) = Ok payload ∧
     Marshal (packDMap part name dm payload) = Ok value ∧
     requestTo net (memberString owner) (mkMessage OpMoveDMap value)
       = (net', Ok resp) ∧
     moveDMap net part name dm owner = (net', part_delete part name, None)).
Proof.
  unfold moveDMap.
  destruct (Export (storage dm)) as [payload|e1] eqn:HE; [|left; eauto].
  destruct (Marshal (packDMap part name dm payload)) as [value|e2] eqn:HM;
    [|right; left; eauto].
  destruct (requestTo net (memberString owner) (mkMessage OpMoveDMap value))
    as [net1 [resp|e3]] eqn:HR.
  - do 3 right. exists payload, value, net1, resp. by rewrite HM, HR.
  - do 2 right. left. exists payload, value, net1, e3. by rewrite HM, HR.
Qed.

Lemma moveSucceeds_not_failed net part name dm owner err :
  moveSucceeds net part name dm owner →
  moveFailsWith net part name dm owner err → False.
Proof.
  intros (p & v & n & r & Hp & Hv & Hr) [He|(p' & Hp' & [Hm|(v' & n' & Hv' & Hr')])];
    congruence.
Qed.

(** C2.  For every call to [moveDMap]: the call returns nil exactly when the
    export, the encoding and the remote request all succeed, and then the
    named map is deleted from the partition's map table; when one of the
    three steps returns an error the partition (hence the local map) is
    unchanged and that very error is returned.  So a map that was in the
    table is gone afterwards if and only if the three steps succeeded. *)
Theorem moveDMap_deletes_iff_all_steps_succeed
    (net : Net) (part : partition) (name : string) (dm : dmap) (owner : Member) :
  ∀ net' part' res,
    moveDMap net part name dm owner = (net', part', res) →
    (res = None ↔ moveSucceeds net part name dm owner) ∧
    (res = None → part' = part_delete part name) ∧
    (∀ err, res = Some err →
       part' = part ∧ moveFailsWith net part name dm owner err) ∧
    (∀ dm0, part_m part !! name = Some dm0 →
       (part_m part' !! name = None ↔ moveSucceeds net part name dm owner) ∧
       (¬ moveSucceeds net part name dm owner →
        part_m part' !! name = Some dm0)).
Proof.
  intros net' part' res Hmove.
  destruct (moveDMap_cases net part name dm owner)
    as [(e & HE & Hm)|[(p & e & HE & HM & Hm)|[(p & v & n & e & HE & HM & HR & Hm)
       |(p & v & n & r & HE & HM & HR & Hm)]]];
    rewrite Hm in Hmove; injection Hmove as <- <- <-.
  1-3: assert (moveFailsWith net part name dm owner e) as Hfail
         by (unfold moveFailsWith; eauto 10).
  1-3: assert (¬ moveSucceeds net part name dm owner) as Hno
         by (intros Hs; exact (moveSucceeds_not_failed _ _ _ _ _ _ Hs Hfail)).
  1-3: split_and!; [naive_solver|done|naive_solver|];
       intros dm0 Hdm0; split; [|done]; split; [congruence|done].
  assert (moveSucceeds net part name dm owner) as Hok
    by (unfold moveSucceeds; eauto 10).
  split_and!; [done|done|done|].
  intros dm0 Hdm0. split; [|done]. split; [done|].
  intros _. simpl. apply lookup_delete_eq.
Qed.

(** ** selectVersionForMerge *)

(** C5.  For every hkey and incoming entry: when the local lookup reports
    key-not-found the incoming entry is returned; any other lookup error is
    propagated; otherwise the result is position 0 of the sorted two-element
    list of the local and the incoming version, and that entry is the one the
    merge puts under the hkey. *)
Theorem selectVersionForMerge_returns_resolver_choice
    (dm : dmap) (hkey : Z) (ent : Entry) :
  (Get (storage dm) hkey = Err ErrKeyNotFound →
   selectVersionForMerge dm hkey ent = Ret (Ok ent)) ∧
  (∀ err, Get (storage dm) hkey = Err err → err ≠ ErrKeyNotFound →
   selectVersionForMerge dm hkey ent = Ret (Err err)) ∧
  (∀ current v,
     Get (storage dm) hkey = Ok current →
     sortVersions [mkVersion current; mkVersion ent] !! 0%nat = Some v →
     selectVersionForMerge dm hkey ent = Ret (Ok (entry v)) ∧
     ∀ name db merr,
       storage (me_dm (mergeVisit name (mkMergeEnv db dm merr) hkey ent).1)
       = (Put (storage dm) hkey (entry v)).1).
Proof.
  unfold selectVersionForMerge. split_and!.
  - intros ->. by rewrite decide_True.
  - intros err -> Hne. by rewrite decide_False.
  - intros current v HG Hv. rewrite HG, Hv. split; [done|].
    intros name db merr. unfold mergeVisit, selectVersionForMerge. simpl.
    rewrite HG, Hv.
    destruct (Put (storage dm) hkey (entry v)) as [str' [err|]]; simpl; [|done].
    by destruct (decide (err = ErrFragmented)).
Qed.

(** ** moveDMapOperation *)

Lemma checkOwnership_spec db part :
  checkOwnership db part = true ↔
  ∃ owner, owner ∈ part_owners part ∧ cmpMembersByID owner (this db) = true.
Proof.
  unfold checkOwnership. rewrite existsb_exists.
  split; intros (o & Ho & Hc); exists o; split; try done;
    by apply list_elem_of_In.
Qed.

(** C1.  For every MOVE_DMAP request the handler checks, in this order, that
    the node is operable, that the payload unmarshals and that the owners of
    the referenced partition contain this node by id.  A failed check leaves
    the node untouched (no merge) and answers with an error: the operability
    error, the decode error, or an error wrapping [ErrInvalidArgument].  Only
    when the three checks pass does [mergeDMaps] run, and [StatusOK] is
    written exactly when it returns nil. *)
Theorem moveDMapOperation_checks_then_merges (db : Olric) (r : SystemMessage) :
  (∀ err, isOperable db = Some err →
     moveDMapOperation db r = (db, Ret (errorResponse err))) ∧
  (∀ err, isOperable db = None → Unmarshal (Value r) = Err err →
     moveDMapOperation db r = (db, Ret (errorResponse err))) ∧
  (∀ box part, isOperable db = None → Unmarshal (Value r) = Ok box →
     partitionOf db (Backup box) (PartID box) = Some part →
     (¬ ∃ owner, owner ∈ part_owners part ∧
                 cmpMembersByID owner (this db) = true) →
     ∃ err, moveDMapOperation db r = (db, Ret (errorResponse err)) ∧
            errorsIs err ErrInvalidArgument = true) ∧
  (∀ box part db' part' merged,
     isOperable db = None → Unmarshal (Value r) = Ok box →
     partitionOf db (Backup box) (PartID box) = Some part →
     (∃ owner, owner ∈ part_owners part ∧
               cmpMembersByID owner (this db) = true) →
     mergeDMaps db part box = (db', part', merged) →
     moveDMapOperation db r
       = (setPartition db' (Backup box) (PartID box) part', respond merged) ∧
     (respond merged = Ret StatusOK ↔ merged = Ret None)) ∧
  (∀ db2, moveDMapOperation db r = (db2, Ret StatusOK) →
     isOperable db = None ∧
     ∃ box part db' part',
       Unmarshal (Value r) = Ok box ∧
       partitionOf db (Backup box) (PartID box) = Some part ∧
       checkOwnership db part = true ∧
       mergeDMaps db part box = (db', part', Ret None) ∧
       db2 = setPartition db' (Backup box) (PartID box) part').
Proof.
  unfold moveDMapOperation. split_and!.
  - by intros err ->.
  - by intros err -> ->.
  - intros box part -> -> -> Hno.
    destruct (checkOwnership db part) eqn:Hown.
    { apply checkOwnership_spec in Hown. done. }
    simpl. eexists; split; [done|]. simpl.
    repeat case_decide; done.
  - intros box part db' part' merged -> -> -> Hown Hmerge.
    apply checkOwnership_spec in Hown. rewrite Hown, Hmerge. simpl.
    split; [by destruct merged as [[?|]|]|].
    destruct merged as [[?|]|]; simpl; split; congruence.
  - intros db2.
    destruct (isOperable db); [congruence|].
    destruct (Unmarshal (Value r)) as [box|]; [|congruence].
    destruct (partitionOf db (Backup box) (PartID box)) as [part|] eqn:Hpart;
      [|congruence].
    destruct (checkOwnership db part) eqn:Hown; simpl; [|congruence].
    destruct (mergeDMaps db part box) as [[db' part'] merged] eqn:Hmerge.
    destruct merged as [[?|]|]; intros Heq; simplify_eq.
    split; [done|]. by exists box, part, db', part'.
Qed.

(** ** mergeDMaps stores the map back *)


(** ** The merge iteration *)

Lemma mergeVisit_cases name env hkey ent :
  (∃ why, selectVersionForMerge (me_dm env) hkey ent = Panic why ∧
     mergeVisit name env hkey ent = (env, Crash why)) ∨
  (∃ err, selectVersionForMerge (me_dm env) hkey ent = Ret (Err err) ∧
     mergeVisit name env hkey ent
       = (mkMergeEnv (me_db env) (me_dm env) (Some err), Stop)) ∨
  (∃ winner str', selectVersionForMerge (me_dm env) hkey ent = Ret (Ok winner) ∧
     Put (storage (me_dm env)) hkey winner = (str', None) ∧
     mergeVisit name env hkey ent
       = (mkMergeEnv (me_db env) (mkDMap (dm_cache (me_dm env)) str') None, Next)) ∨
  (∃ winner str', selectVersionForMerge (me_dm env) hkey ent = Ret (Ok winner) ∧
     Put (storage (me_dm env)) hkey winner = (str', Some ErrFragmented) ∧
     mergeVisit name env hkey ent
       = (mkMergeEnv (spawnCompaction (me_db env) name)
            (mkDMap (dm_cache (me_dm env)) str') None, Next)) ∨
  (∃ winner str' err, selectVersionForMerge (me_dm env) hkey ent = Ret (Ok winner) ∧
     Put (storage (me_dm env)) hkey winner = (str', Some err) ∧
     err ≠ ErrFragmented ∧
     mergeVisit name env hkey ent
       = (mkMergeEnv (me_db env) (mkDMap (dm_cache (me_dm env)) str') (Some err),
          Stop)).
Proof.
  unfold mergeVisit.
  destruct (selectVersionForMerge (me_dm env) hkey ent) as [[winner|err]|why];
    [|right; left; eauto|left; eauto].
  destruct (Put (storage (me_dm env)) hkey winner) as [str' [err|]] eqn:HP.
  - destruct (decide (err = ErrFragmented)) as [->|Hne].
    + do 3 right. left. by exists winner, str'.
    + do 4 right. by exists winner, str', err.
  - do 2 right. left. by exists winner, str'.
Qed.

Lemma selectVersionForMerge_error dm hkey ent err :
  selectVersionForMerge dm hkey ent = Ret (Err err) →
  Get (storage dm) hkey = Err err ∧ err ≠ ErrKeyNotFound.
Proof.
  unfold selectVersionForMerge.
  destruct (Get (storage dm) hkey) as [cur|e].
  - by destruct (sortVersions _ !! 0%nat).
  - destruct (decide (e = ErrKeyNotFound)); [done|]. by intros [= ->].
Qed.

Lemma mergeIteration_error_source name data kvs env :
  (∀ err, mergeErr env = Some err → mergeErrorSource data err) →
  ∀ err, mergeErr (rangeWith (mergeVisit name) kvs env).1 = Some err →
         mergeErrorSource data err.
Proof.
  revert env. induction kvs as [|[hkey ent] kvs IH]; intros env Henv; [done|].
  simpl.
  destruct (mergeVisit_cases name env hkey ent)
    as [(why & _ & ->)|[(e & Hsel & ->)|[(w & s & _ & _ & ->)
       |[(w & s & _ & _ & ->)|(w & s & e & _ & HP & Hne & ->)]]]]; simpl.
  - done.
  - intros err [= <-]. apply selectVersionForMerge_error in Hsel as [HG Hne].
    unfold mergeErrorSource. eauto 10.
  - by apply IH.
  - by apply IH.
  - intros err [= <-]. unfold mergeErrorSource. eauto 10.
Qed.

Lemma mergeIteration_total name kvs env :
  (∀ s hkey err, Get s hkey = Err err → err = ErrKeyNotFound) →
  (∀ s hkey winner s' r,
     Put s hkey winner = (s', r) → r = None ∨ r = Some ErrFragmented) →
  (∀ a b, sortVersions [a; b] ≠ []) →
  mergeErr env = None →
  (rangeWith (mergeVisit name) kvs env).2 = Next ∧
  mergeErr (rangeWith (mergeVisit name) kvs env).1 = None.
Proof.
  intros HGet HPut HSort. revert env.
  induction kvs as [|[hkey ent] kvs IH]; intros env Henv; [done|].
  simpl.
  destruct (mergeVisit_cases name env hkey ent)
    as [(why & Hsel & ->)|[(e & Hsel & ->)|[(w & s & _ & _ & ->)
       |[(w & s & _ & _ & ->)|(w & s & e & _ & HP & Hne & ->)]]]]; simpl.
  - exfalso. unfold selectVersionForMerge in Hsel.
    destruct (Get (storage (me_dm env)) hkey) as [cur|e].
    + pose proof (HSort (mkVersion cur) (mkVersion ent)) as Hs.
      by destruct (sortVersions [mkVersion cur; mkVersion ent]).
    + by destruct (decide (e = ErrKeyNotFound)).
  - exfalso. apply selectVersionForMerge_error in Hsel as [HG Hne]. eauto.
  - by apply IH.
  - by apply IH.
  - exfalso. destruct (HPut _ _ _ _ _ HP) as [?|?]; congruence.
Qed.

(** C7.  When a put of the merge iteration returns the fragmented signal the
    visitor starts one [compactTables] goroutine (and counts it in the wait
    group), clears the error and lets the iteration continue; an error that
    [mergeDMaps] returns is therefore never the fragmented signal of a put;
    and when nothing else fails (lookups only miss, puts report at most the
    fragmented signal, the sort returns its versions, the map and the import
    are fine) the merge returns nil and the handler answers [StatusOK]. *)
Theorem fragmented_put_is_not_an_error :
  (∀ name env hkey ent winner str',
     selectVersionForMerge (me_dm env) hkey ent = Ret (Ok winner) →
     Put (storage (me_dm env)) hkey winner = (str', Some ErrFragmented) →
     mergeVisit name env hkey ent
       = (mkMergeEnv
            (mkOlric (this (me_db env)) (config (me_db env))
               (partitions (me_db env)) (backups (me_db env))
               (S (wg (me_db env)))
               (spawned (me_db env) ++ [compactTables name]))
            (mkDMap (dm_cache (me_dm env)) str') None,
          Next)) ∧
  (∀ db part data db' part' err,
     mergeDMaps db part data = (db', part', Ret (Some err)) →
     mergeErrorSource data err) ∧
  ((∀ s hkey err, Get s hkey = Err err → err = ErrKeyNotFound) →
   (∀ s hkey winner s' r,
      Put s hkey winner = (s', r) → r = None ∨ r = Some ErrFragmented) →
   (∀ a b, sortVersions [a; b] ≠ []) →
   ∀ db r box part part0 dm str,
     isOperable db = None →
     Unmarshal (Value r) = Ok box →
     partitionOf db (Backup box) (PartID box) = Some part →
     checkOwnership db part = true →
     getOrCreateDMap part (BoxName box) = (part0, Ok dm) →
     Import (Payload box) = Ok str →
     (mergeDMaps db part box).2 = Ret None ∧
     (moveDMapOperation db r).2 = Ret StatusOK).
Proof.
  split_and!.
  - intros name env hkey ent winner str' Hsel HP.
    unfold mergeVisit. rewrite Hsel, HP. by rewrite decide_True.
  - intros db part data db' part' err. unfold mergeDMaps.
    destruct (getOrCreateDMap part (BoxName data)) as [part0 [dm|e]] eqn:Hget.
    + destruct (Import (Payload data)) as [str|e] eqn:Himp.
      * destruct (decide (Len (storage (mergeCache dm data)) = 0)); [done|].
        destruct (rangeWith _ _ _) as [env c] eqn:Hrange.
        destruct c; intros [= <- <- Herr]; try done.
        all: eapply (mergeIteration_error_source (BoxName data) data
                       (Range str) (mkMergeEnv db (mergeCache dm data) None));
          [done|by rewrite Hrange].
      * intros [= <- <- <-]. unfold mergeErrorSource. eauto.
    + intros [= <- <- <-]. unfold getOrCreateDMap in Hget.
      destruct (part_m part !! BoxName data); [done|].
      destruct (createDMap (BoxName data)) eqn:Hc; [done|].
      injection Hget as <- <-. unfold mergeErrorSource. eauto.
  - intros HGet HPut HSort db r box part part0 dm str Hop Hun Hpart Hown Hget Himp.
    assert ((mergeDMaps db part box).2 = Ret None) as Hmerge.
    { unfold mergeDMaps. rewrite Hget, Himp.
      destruct (decide (Len (storage (mergeCache dm box)) = 0)); [done|].
      pose proof (mergeIteration_total (BoxName box) (Range str)
                    (mkMergeEnv db (mergeCache dm box) None)
                    HGet HPut HSort eq_refl) as [Hc He].
      destruct (rangeWith _ _ _) as [env c]. simpl in *. by rewrite Hc, He. }
    split; [done|].
    unfold moveDMapOperation. rewrite Hop, Hun, Hpart, Hown. simpl.
    destruct (mergeDMaps db part box) as [[db' part'] merged].
    simpl in Hmerge. by rewrite Hmerge.
Qed.

(** ** The access log *)

Lemma mergeAccessLog_lookup (local incoming : gmap Z Z) (hkey : Z) :
  mergeAccessLog local incoming !! hkey =
    match local !! hkey with
    | Some t => Some t
    | None => incoming !! hkey
    end.
Proof.
  unfold mergeAccessLog.
  apply (map_fold_weak_ind
           (λ acc (seen : gmap Z Z),
              acc !! hkey = match local !! hkey with
                            | Some t => Some t
                            | None => seen !! hkey
                            end)).
  - rewrite lookup_empty. by destruct (local !! hkey).
  - intros k t seen acc Hfresh IH.
    destruct (acc !! k) as [t0|] eqn:Hk.
    + rewrite IH. destruct (local !! hkey) eqn:Hl; [done|].
      destruct (decide (k = hkey)) as [->|Hne].
      * rewrite IH, Hfresh in Hk. done.
      * by rewrite lookup_insert_ne.
    + destruct (decide (k = hkey)) as [->|Hne].
      * rewrite lookup_insert_eq. rewrite IH in Hk.
        destruct (local !! hkey); [done|]. by rewrite lookup_insert_eq.
      * rewrite !lookup_insert_ne by done. done.
Qed.

Lemma mergeIteration_cache name kvs env :
  dm_cache (me_dm (rangeWith (mergeVisit name) kvs env).1) = dm_cache (me_dm env).
Proof.
  revert env. induction kvs as [|[hkey ent] kvs IH]; intros env; [done|].
  simpl.
  destruct (mergeVisit_cases name env hkey ent)
    as [(why & _ & ->)|[(e & Hsel & ->)|[(w & s & _ & _ & ->)
       |[(w & s & _ & _ & ->)|(w & s & e & _ & HP & Hne & ->)]]]]; simpl;
    try done; by rewrite IH.
Qed.

Lemma mergeDMaps_cache db part data part0 dm str :
  getOrCreateDMap part (BoxName data) = (part0, Ok dm) →
  Import (Payload data) = Ok str →
  ∃ dm', part_m (mergeDMaps db part data).1.2 !! BoxName data = Some dm' ∧
         dm_cache dm' = dm_cache (mergeCache dm data).
Proof.
  intros Hget Himp. unfold mergeDMaps. rewrite Hget, Himp.
  destruct (decide (Len (storage (mergeCache dm data)) = 0)).
  - eexists. split; [apply lookup_insert_eq|done].
  - pose proof (mergeIteration_cache (BoxName data) (Range str)
                  (mkMergeEnv db (mergeCache dm data) None)) as Hc.
    destruct (rangeWith _ _ _) as [env c]. simpl in *.
    eexists. split; [apply lookup_insert_eq|done].
Qed.

(** C6, as amended.  When the payload imports and the local map has a cache
    with a non-nil access log, the log after the merge keeps the local
    timestamp of every hkey it had and carries the incoming timestamp of
    every other incoming hkey (nothing else is added).  A local map without
    an access log has none after the merge either: the incoming log is not
    merged.  When the import fails the map is stored back as it was. *)
Theorem access_log_merge_fills_gaps_only
    (db : Olric) (part : partition) (data : dmapbox) :
  (∀ part0 dm c log str,
     getOrCreateDMap part (BoxName data) = (part0, Ok dm) →
     Import (Payload data) = Ok str →
     dm_cache dm = Some c → accessLog c = Some log →
     ∃ dm', part_m (mergeDMaps db part data).1.2 !! BoxName data = Some dm' ∧
       ∀ hkey,
         logOf dm' !! hkey =
           match log !! hkey with
           | Some t => Some t
           | None => default ∅ (AccessLog data) !! hkey
           end) ∧
  (∀ part0 dm str,
     getOrCreateDMap part (BoxName data) = (part0, Ok dm) →
     Import (Payload data) = Ok str →
     (dm_cache dm = None ∨ dm_cache dm = Some (mkCache None)) →
     ∃ dm', part_m (mergeDMaps db part data).1.2 !! BoxName data = Some dm' ∧
            dm_cache dm' = dm_cache dm ∧ logOf dm' = ∅) ∧
  (∀ part0 dm err,
     getOrCreateDMap part (BoxName data) = (part0, Ok dm) →
     Import (Payload data) = Err err →
     part_m (mergeDMaps db part data).1.2 !! BoxName data = Some dm).
Proof.
  split_and!.
  - intros part0 dm c log str Hget Himp Hc Hlog.
    destruct (mergeDMaps_cache db part data part0 dm str Hget Himp)
      as (dm' & Hdm' & Hcache).
    exists dm'. split; [done|]. intros hkey.
    unfold logOf. rewrite Hcache. unfold mergeCache. rewrite Hc, Hlog. simpl.
    apply mergeAccessLog_lookup.
  - intros part0 dm str Hget Himp Hnolog.
    destruct (mergeDMaps_cache db part data part0 dm str Hget Himp)
      as (dm' & Hdm' & Hcache).
    exists dm'. split; [done|].
    assert (mergeCache dm data = dm) as Hsame.
    { unfold mergeCache. by destruct Hnolog as [-> | ->]. }
    rewrite Hsame in Hcache. split; [done|].
    unfold logOf. rewrite Hcache. by destruct Hnolog as [-> | ->].
  - intros part0 dm err Hget Himp. unfold mergeDMaps. rewrite Hget, Himp.
    simpl. apply lookup_insert_eq.
Qed.

(** ** The tail of the owners list *)

Lemma tailOwnerIDs_short db owners offset k ids :
  offset < -1 → (k ≤ length owners)%nat →
  tailOwnerIDs db owners offset k ids = Panic "index out of range [-1]".
Proof.
  intros Hoff. revert ids. induction k as [|k IH]; intros ids Hk; simpl.
  - by rewrite decide_True by lia.
  - rewrite decide_True by lia.
    destruct (owners !! k) as [owner|] eqn:Ho.
    + destruct (cmpMembersByName (this db) owner); apply IH; lia.
    + apply lookup_ge_None in Ho. lia.
Qed.

Lemma tailPositions_short offset k :
  offset < -1 → tailPositions offset k = Panic "index out of range [-1]".
Proof.
  intros Hoff. induction k as [|k IH]; simpl.
  - by rewrite decide_True by lia.
  - rewrite decide_True by lia. by rewrite IH.
Qed.

(** The positions the loop visits when the offset is not below [-1]: from
    [k - 1] down to [offset + 1]. *)
Lemma tailPositions_within offset k :
  -1 ≤ offset →
  tailPositions offset k
    = Ret (reverse (seqZ (offset + 1) (Z.of_nat k - 1 - offset))).
Proof.
  intros Hoff. induction k as [|k IH]; simpl.
  - rewrite decide_False by lia. by rewrite seqZ_nil by lia.
  - destruct (decide (Z.of_nat (S k) - 1 > offset)) as [Hgt|Hle].
    + rewrite IH.
      replace (Z.of_nat (S k) - 1 - offset)
        with ((Z.of_nat k - 1 - offset) + 1) by lia.
      rewrite seqZ_app by lia. rewrite reverse_app. simpl.
      do 3 f_equal. lia.
    + by rewrite seqZ_nil by lia.
Qed.

(** The ids the loop collects are those of the owners at the visited
    positions that are not this node by name. *)
Lemma tailOwnerIDs_positions db owners offset k ids :
  -1 ≤ offset → (k ≤ length owners)%nat →
  tailOwnerIDs db owners offset k ids
    = Ret (ids ++
           omap (λ i, owner ← owners !! Z.to_nat i;
                      if cmpMembersByName (this db) owner then None
                      else Some (ID owner))
                (reverse (seqZ (offset + 1) (Z.of_nat k - 1 - offset)))).
Proof.
  intros Hoff. revert ids. induction k as [|k IH]; intros ids Hk; simpl.
  - rewrite decide_False by lia. rewrite seqZ_nil by lia. simpl.
    by rewrite app_nil_r.
  - destruct (decide (Z.of_nat (S k) - 1 > offset)) as [Hgt|Hle].
    + replace (Z.of_nat (S k) - 1 - offset)
        with ((Z.of_nat k - 1 - offset) + 1) by lia.
      rewrite seqZ_app by lia. rewrite reverse_app. simpl.
      replace (offset + 1 + (Z.of_nat k - 1 - offset)) with (Z.of_nat k) by lia.
      replace (Z.to_nat (Z.of_nat 0 + Z.of_nat k)) with k by lia.
      destruct (owners !! k) as [owner|] eqn:Ho.
      * simpl. destruct (cmpMembersByName (this db) owner).
        -- by rewrite IH by lia.
        -- rewrite IH by lia. by rewrite <- app_assoc.
      * apply lookup_ge_None in Ho. lia.
    + rewrite seqZ_nil by lia. simpl. by rewrite app_nil_r.
Qed.

(** C10.  When the owners list has fewer than [ReplicaCount - 1] entries the
    offset [len(owners) - 1 - (ReplicaCount - 1)] is below [-1]: the
    descending loop visits the positions [len(owners) - 1] down to [0] and
    then indexes the slice at [-1], which panics; no list of ids is
    produced.  (With at least [ReplicaCount - 1] owners the loop visits
    exactly the positions from [len(owners) - 1] down to
    [len(owners) - (ReplicaCount - 1)].) *)
Theorem backup_tail_loop_indexes_below_zero
    (db : Olric) (owners : list Member) (replicas : Z) :
  (Z.of_nat (length owners) < replicas - 1 →
   tailPositions (Z.of_nat (length owners) - 1 - (replicas - 1)) (length owners)
     = Panic "index out of range [-1]" ∧
   tailOwnerIDs db owners (Z.of_nat (length owners) - 1 - (replicas - 1))
     (length owners) []
     = Panic "index out of range [-1]") ∧
  (replicas - 1 ≤ Z.of_nat (length owners) →
   tailPositions (Z.of_nat (length owners) - 1 - (replicas - 1)) (length owners)
     = Ret (reverse (seqZ (Z.of_nat (length owners) - (replicas - 1))
                       (replicas - 1)))).
Proof.
  split.
  - intros Hshort. split.
    + apply tailPositions_short. lia.
    + apply tailOwnerIDs_short; [lia|done].
  - intros Hlong. rewrite tailPositions_within by lia. do 3 f_equal; lia.
Qed.

(** ** What a pass leaves in the trace *)

Lemma rangeWith_cons {K V S : Type} (visit : S → K → V → S * ctl) k v rest s :
  rangeWith visit ((k, v) :: rest) s
  = match visit s k v with
    | (s', Next) => rangeWith visit rest s'
    | (s', c) => (s', c)
    end.
Proof. done. Qed.

(** Peel the events a step is known to have appended. *)
Ltac peel_events :=
  simpl;
  repeat (apply Forall_cons; split; [by (intros; simpl in *)|]);
  rewrite ?Forall_app;
  repeat split; try done.

Lemma moveDMap_owners net part name dm owner net' part' res :
  moveDMap net part name dm owner = (net', part', res) →
  part_owners part' = part_owners part.
Proof.
  intros Hmove.
  destruct (moveDMap_cases net part name dm owner)
    as [(e & _ & Hm)|[(p & e & _ & _ & Hm)|[(p & v & n & e & _ & _ & _ & Hm)
       |(p & v & n & r & _ & _ & _ & Hm)]]];
    rewrite Hm in Hmove; by injection Hmove as <- <- <-.
Qed.

Lemma moveVisit_spec rsign partID owner w part name dm :
  ∃ net' part' err,
    part_owners part' = part_owners part ∧
    moveVisit rsign partID owner (w, part) name dm
    = ((mkWorld (node w) net' (S (loads w)) (probes w)
          (trace w ++ [EvMove partID (part_backup part) name owner err;
                       EvLoadSignature (routingSignature (loads w))]),
        part'),
       if decide (rsign = routingSignature (loads w)) then Next else Stop).
Proof.
  unfold moveVisit.
  destruct (moveDMap (network w) part name dm owner) as [[net' part'] err] eqn:Hm.
  exists net', part', err. split; [by eapply moveDMap_owners|].
  unfold loadRoutingSignature. simpl. by rewrite <- app_assoc.
Qed.

(** Only moves of the partition being visited are started by the map
    iteration, and the node is not touched by it. *)
Lemma moveRange_frame rsign partID owner kvs w part w' part' c :
  rangeWith (moveVisit rsign partID owner) kvs (w, part) = ((w', part'), c) →
  node w' = node w ∧ part_owners part' = part_owners part ∧
  ∃ l, trace w' = trace w ++ l ∧
       Forall (λ ev, ∀ q, isMoveOf q ev = true → q = partID) l.
Proof.
  revert w part. induction kvs as [|[name dm] kvs IH]; intros w part.
  - intros [= <- <- <-]. split_and!; [done..|]. exists []. by rewrite app_nil_r.
  - rewrite rangeWith_cons.
    destruct (moveVisit_spec rsign partID owner w part name dm)
      as (net1 & part1 & err & Howners & ->).
    destruct (decide (rsign = routingSignature (loads w))).
    + intros Hrest. apply IH in Hrest as (Hnode & Hown & l & Htrace & Hl).
      simpl in *. split_and!; [done|congruence|].
      eexists. rewrite Htrace, <- app_assoc. split; [done|].
      apply Forall_cons. split.
      { intros q. simpl. by intros ->%bool_decide_eq_true. }
      peel_events.
    + intros [= <- <- <-]. simpl. split_and!; [done..|].
      eexists. split; [done|].
      apply Forall_cons. split.
      { intros q. simpl. by intros ->%bool_decide_eq_true. }
      peel_events.
Qed.

Lemma idsLoop_frame rsign partID ids w part w' part' :
  idsLoop rsign partID ids (w, part) = (w', part') →
  node w' = node w ∧ part_owners part' = part_owners part ∧
  ∃ l, trace w' = trace w ++ l ∧
       Forall (λ ev, ∀ q, isMoveOf q ev = true → q = partID) l.
Proof.
  revert w part. induction ids as [|id ids IH]; intros w part; simpl.
  - intros [= <- <-]. split_and!; [done..|]. exists []. by rewrite app_nil_r.
  - destruct (aliveness (probes w)); simpl.
    2:{ intros [= <- <-]. simpl. split_and!; [done..|].
        eexists. split; [done|]. peel_events. }
    destruct (decide (rsign ≠ routingSignature (loads w))).
    { intros [= <- <-]. simpl. split_and!; [done..|].
      eexists. rewrite <- app_assoc. split; [done|]. peel_events. }
    destruct (FindMemberByID id) as [owner|].
    + destruct (rangeWith _ _ _) as [[w1 part1] c] eqn:Hrange.
      apply moveRange_frame in Hrange as (Hn1 & Ho1 & l1 & Ht1 & Hl1).
      intros Hrest. apply IH in Hrest as (Hn2 & Ho2 & l2 & Ht2 & Hl2).
      simpl in *. split_and!; [congruence..|].
      eexists. rewrite Ht2, Ht1, <- !app_assoc. split; [done|].
      peel_events.
    + intros Hrest. apply IH in Hrest as (Hn2 & Ho2 & l2 & Ht2 & Hl2).
      simpl in *. split_and!; [congruence..|].
      eexists. rewrite Ht2, <- !app_assoc. split; [done|].
      peel_events.
Qed.

Lemma backupOwners_set w partID part part' q :
  backups (node w) !! partID = Some part →
  part_owners part' = part_owners part →
  backupOwners (setNodePartition w true partID part') q = backupOwners w q.
Proof.
  intros Hpart Hown. unfold backupOwners, setNodePartition. simpl.
  destruct (decide (partID = q)) as [->|Hne].
  - rewrite lookup_insert_eq, Hpart. simpl. by rewrite Hown.
  - by rewrite lookup_insert_ne.
Qed.

(** Every move the backup loop starts is for a partition whose owners list
    does not have exactly [ReplicaCount - 1] entries. *)
Lemma backupLoop_frame rsign partIDs w w' r :
  backupLoop rsign partIDs w = (w', r) →
  config (node w') = config (node w) ∧
  (∀ q, backupOwners w' q = backupOwners w q) ∧
  ∃ l, trace w' = trace w ++ l ∧
       Forall (λ ev, ∀ q, isMoveOf q ev = true →
                 ∃ owners, backupOwners w q = Some owners ∧
                   Z.of_nat (length owners)
                     ≠ ReplicaCount (config (node w)) - 1) l.
Proof.
  revert w w' r. induction partIDs as [|partID partIDs IH]; intros w w' r; simpl.
  - intros [= <- <-]. split_and!; [done..|]. exists []. by rewrite app_nil_r.
  - set (w0 := mkWorld (node w) (network w) (loads w) (S (probes w))
                 (trace w ++ [EvIsAlive (aliveness (probes w))])).
    assert (Hskip : ∀ w' r, backupLoop rsign partIDs w0 = (w', r) →
              config (node w') = config (node w) ∧
              (∀ q, backupOwners w' q = backupOwners w q) ∧
              ∃ l, trace w' = trace w ++ l ∧
                   Forall (λ ev, ∀ q, isMoveOf q ev = true →
                     ∃ owners, backupOwners w q = Some owners ∧
                       Z.of_nat (length owners)
                         ≠ ReplicaCount (config (node w)) - 1) l).
    { intros w1 r1 Hrest. apply IH in Hrest as (Hc & Ho & l & Ht & Hl).
      split_and!; [done..|]. eexists. rewrite Ht. simpl.
      rewrite <- app_assoc. split; [done|]. peel_events. }
    destruct (aliveness (probes w)) eqn:Halive; simpl.
    2:{ intros [= <- <-]. simpl. split_and!; [done..|].
        eexists. split; [done|]. peel_events. }
    destruct (backups (node w) !! partID) as [part|] eqn:Hpart.
    2:{ intros [= <- <-]. simpl. split_and!; [done..|].
        eexists. split; [done|]. peel_events. }
    destruct (decide (part_length part = 0)); [by apply Hskip|].
    destruct (decide (Z.of_nat (length (part_owners part))
                      = ReplicaCount (config (node w)) - 1)) as [|Hne];
      [by apply Hskip|].
    destruct (tailOwnerIDs _ _ _ _ _) as [ids|why].
    2:{ intros [= <- <-]. simpl. split_and!; [done..|].
        eexists. split; [done|]. peel_events. }
    destruct (idsLoop rsign partID ids (w0, part)) as [w1 part1] eqn:Hids.
    apply idsLoop_frame in Hids as (Hn1 & Ho1 & l1 & Ht1 & Hl1).
    intros Hrest. apply IH in Hrest as (Hc & Ho & l & Ht & Hl).
    assert (Hpart1 : backups (node w1) !! partID = Some part)
      by (rewrite Hn1; done).
    assert (Hback : ∀ q, backupOwners (setNodePartition w1 true partID part1) q
                         = backupOwners w q).
    { intros q. rewrite (backupOwners_set w1 partID part part1 q Hpart1 Ho1).
      unfold backupOwners. by rewrite Hn1. }
    assert (Hconf : config (node (setNodePartition w1 true partID part1))
                    = config (node w)) by (simpl; by rewrite Hn1).
    split_and!.
    + by rewrite Hc.
    + intros q. by rewrite Ho.
    + eexists. rewrite Ht. simpl. rewrite Ht1. simpl.
      rewrite <- !app_assoc. split; [done|].
      peel_events.
      * eapply Forall_impl; [exact Hl1|]. intros ev Hev q Hq.
        rewrite (Hev q Hq). exists (part_owners part).
        unfold backupOwners. rewrite Hpart. done.
      * eapply Forall_impl; [exact Hl|]. intros ev Hev q Hq.
        destruct (Hev q Hq) as (owners & Hown & Hlen).
        exists owners. rewrite <- Hback. split; [done|].
        by rewrite <- Hconf.
Qed.

Lemma primaryLoop_config rsign partIDs w w' r :
  primaryLoop rsign partIDs w = (w', r) →
  config (node w') = config (node w).
Proof.
  revert w w' r. induction partIDs as [|partID partIDs IH]; intros w w' r; simpl.
  - by intros [= <- <-].
  - destruct (aliveness (probes w)); simpl; [|by intros [= <- <-]].
    destruct (decide (rsign ≠ routingSignature (loads w)));
      [by intros [= <- <-]|].
    destruct (partitions (node w) !! partID) as [part|];
      [|by intros [= <- <-]].
    destruct (decide (part_length part = 0)).
    { intros Hrest. by apply IH in Hrest. }
    destruct (part_owner part) as [owner|why]; [|by intros [= <- <-]].
    destruct (cmpMembersByName owner (this (node w))).
    { intros Hrest. by apply IH in Hrest. }
    destruct (rangeWith _ _ _) as [[w1 part1] c] eqn:Hrange.
    apply moveRange_frame in Hrange as (Hn1 & _).
    intros Hrest. apply IH in Hrest. rewrite Hrest. simpl. by rewrite Hn1.
Qed.

(** C8.  The rebalancer runs the backup pass only when [ReplicaCount] exceeds
    [MinimumReplicaCount]: otherwise its result is that of the primary pass
    alone (and nothing at all runs on a node that is not operable).  Within a
    backup pass no move is started for a backup partition whose owners list
    has exactly [ReplicaCount - 1] entries. *)
Theorem backup_pass_gated_and_skips_satisfied (w : World) :
  (ReplicaCount (config (node w)) ≤ MinimumReplicaCount →
   rebalancer w = match isOperable (node w) with
                  | Some _ => (w, Ret ())
                  | None => rebalancePrimaryPartitions w
                  end) ∧
  (∀ w1 done, MinimumReplicaCount < ReplicaCount (config (node w)) →
     isOperable (node w) = None →
     rebalancePrimaryPartitions w = (w1, Ret done) →
     rebalancer w = rebalanceBackupPartitions w1) ∧
  (∀ w' r, rebalanceBackupPartitions w = (w', r) →
     ∃ l, trace w' = trace w ++ l ∧
       ∀ partID part,
         backups (node w) !! partID = Some part →
         Z.of_nat (length (part_owners part))
           = ReplicaCount (config (node w)) - 1 →
         Forall (λ ev, isMoveOf partID ev = false) l).
Proof.
  assert (Hconf : ∀ w1 r, rebalancePrimaryPartitions w = (w1, r) →
                    config (node w1) = config (node w)).
  { intros w1 r. unfold rebalancePrimaryPartitions. simpl.
    intros Hloop. by apply primaryLoop_config in Hloop. }
  split_and!.
  - intros Hle. unfold rebalancer. destruct (isOperable (node w)); [done|].
    destruct (rebalancePrimaryPartitions w) as [w1 r] eqn:Hprim.
    pose proof (Hconf _ _ eq_refl) as Hsame. simpl in Hsame.
    destruct r as [[]|why]; [|done].
    rewrite Hsame. by rewrite decide_False by lia.
  - intros w1 done Hgt Hop Hprim. pose proof (Hconf _ _ Hprim) as Hsame.
    unfold rebalancer. rewrite Hop, Hprim.
    rewrite Hsame. by rewrite decide_True by lia.
  - intros w' r. unfold rebalanceBackupPartitions. simpl.
    intros Hloop. apply backupLoop_frame in Hloop as (_ & _ & l & Ht & Hl).
    simpl in *. eexists. rewrite Ht, <- app_assoc. split; [done|].
    intros partID part Hpart Hlen. peel_events.
    eapply Forall_impl; [exact Hl|]. intros ev Hev.
    destruct (isMoveOf partID ev) eqn:Hmv; [|done].
    destruct (Hev partID Hmv) as (owners & Hown & Hne).
    unfold backupOwners in Hown. simpl in Hown. rewrite Hpart in Hown.
    simpl in Hown. injection Hown as <-. done.
Qed.

(** ** Cancellation on a signature change *)

Lemma calm_app rsign l1 l2 : calm rsign l1 → calm rsign l2 → calm rsign (l1 ++ l2).
Proof. unfold calm. rewrite Forall_app. done. Qed.

Lemma moveFree_app l1 l2 : moveFree l1 → moveFree l2 → moveFree (l1 ++ l2).
Proof. unfold moveFree. rewrite Forall_app. done. Qed.

Lemma calm_settles rsign n l : calm rsign l → settles rsign n l.
Proof.
  intros Hc. exists l, []. rewrite app_nil_r. split_and!; [done..| |simpl; lia].
  constructor.
Qed.

Lemma settles_prefix rsign n c l :
  calm rsign c → settles rsign n l → settles rsign n (c ++ l).
Proof.
  intros Hc (c0 & q & -> & Hc0 & Hq & Hn). exists (c ++ c0), q.
  rewrite app_assoc. split_and!; [done|by apply calm_app|done..].
Qed.

Lemma calm_winds_down rsign l : calm rsign l → winds_down rsign l.
Proof.
  intros Hc. exists l, []. rewrite app_nil_r. split_and!; [done..|]. constructor.
Qed.

Lemma winds_down_prefix rsign c l :
  calm rsign c → winds_down rsign l → winds_down rsign (c ++ l).
Proof.
  intros Hc (c0 & q & -> & Hc0 & Hq). exists (c ++ c0), q.
  rewrite app_assoc. split_and!; [done|by apply calm_app|done].
Qed.

Lemma winds_down_suffix rsign l q :
  winds_down rsign l → moveFree q → winds_down rsign (l ++ q).
Proof.
  intros (c0 & q0 & -> & Hc0 & Hq0) Hq. exists c0, (q0 ++ q).
  rewrite app_assoc. split_and!; [done..|by apply moveFree_app].
Qed.

(** A load that returned another signature lies after the calm stretch. *)
Lemma change_after_calm rsign c q l1 v l2 :
  calm rsign c → v ≠ rsign →
  c ++ q = l1 ++ EvLoadSignature v :: l2 →
  ∃ q1, q = q1 ++ EvLoadSignature v :: l2.
Proof.
  intros Hc Hv Heq. apply app_eq_inv in Heq as [(k & -> & Hq)|(k & -> & Hk)].
  - destruct k as [|ev k]; simpl in Hq.
    + exists []. done.
    + injection Hq as Hev Hl2. subst ev. exfalso.
      apply Forall_app in Hc as [_ Hc]. apply Forall_cons in Hc as [Hc _].
      by specialize (Hc v eq_refl).
  - by exists k.
Qed.

Lemma settles_after_change rsign n l l1 v l2 :
  settles rsign n l → v ≠ rsign → l = l1 ++ EvLoadSignature v :: l2 →
  moveFree l2 ∧ (S (length l2) ≤ n)%nat.
Proof.
  intros (c & q & -> & Hc & Hq & Hn) Hv Heq.
  destruct (change_after_calm rsign c q l1 v l2 Hc Hv Heq) as (q1 & ->).
  apply Forall_app in Hq as [_ Hq]. apply Forall_cons in Hq as [_ Hq].
  split; [done|]. rewrite length_app in Hn. simpl in Hn. lia.
Qed.

Lemma winds_down_after_change rsign l l1 v l2 :
  winds_down rsign l → v ≠ rsign → l = l1 ++ EvLoadSignature v :: l2 →
  moveFree l2.
Proof.
  intros (c & q & -> & Hc & Hq) Hv Heq.
  destruct (change_after_calm rsign c q l1 v l2 Hc Hv Heq) as (q1 & ->).
  apply Forall_app in Hq as [_ Hq]. by apply Forall_cons in Hq as [_ Hq].
Qed.

Ltac calm_events :=
  unfold calm, moveFree; simpl;
  repeat (apply Forall_cons; split;
          [by (first [intros ? [= <-] | intros ? [=] | idtac])|]);
  try apply Forall_nil_2.

(** The map iteration: either every load still saw [rsign] and the iteration
    ran to its end, or it stopped right after the load that saw the
    change. *)
Lemma moveRange_calm rsign partID owner kvs w part w' part' c :
  rangeWith (moveVisit rsign partID owner) kvs (w, part) = ((w', part'), c) →
  (loads w ≤ loads w')%nat ∧
  ∃ l, trace w' = trace w ++ l ∧
    ((calm rsign l ∧ (tripped rsign w' → tripped rsign w)) ∨
     (∃ c0 v, l = c0 ++ [EvLoadSignature v] ∧ calm rsign c0 ∧
              tripped rsign w')).
Proof.
  revert w part. induction kvs as [|[name dm] kvs IH]; intros w part.
  - intros [= <- <- <-]. split; [done|]. exists []. rewrite app_nil_r.
    split; [done|]. left. split; [constructor|done].
  - rewrite rangeWith_cons.
    destruct (moveVisit_spec rsign partID owner w part name dm)
      as (net1 & part1 & err & _ & ->).
    destruct (decide (rsign = routingSignature (loads w))) as [Heq|Hne].
    + intros Hrest. apply IH in Hrest as (Hle & l & Ht & Hl). simpl in *.
      split; [lia|]. eexists. rewrite Ht, <- app_assoc. split; [done|].
      destruct Hl as [(Hc & Hun)|(c0 & v & -> & Hc0 & Htr)].
      * left. split.
        -- apply calm_app; [|done]. calm_events.
        -- intros Htr. apply Hun in Htr. unfold tripped in Htr. simpl in Htr.
           congruence.
      * right. exists ([EvMove partID (part_backup part) name owner err;
                        EvLoadSignature (routingSignature (loads w))] ++ c0), v.
        rewrite <- app_assoc. split_and!; [done| |done].
        apply calm_app; [|done]. calm_events.
    + intros [= <- <- <-]. simpl. split; [lia|]. eexists. split; [done|].
      right. exists [EvMove partID (part_backup part) name owner err],
               (routingSignature (loads w)).
      split_and!; [done| |by unfold tripped]. calm_events.
Qed.

Lemma tripped_next_load n0 rsign (w : World) :
  persistent n0 rsign → (n0 < loads w)%nat → tripped rsign w →
  routingSignature (loads w) ≠ rsign.
Proof.
  intros Hpers Hn0 Htr. apply (Hpers (pred (loads w)) (loads w)); [lia..|done].
Qed.

(** Once tripped, the primary loop breaks at the next partition boundary:
    it asks [isAlive], loads the signature at most once, and returns. *)
Lemma primaryLoop_tripped n0 rsign partIDs w w' r :
  persistent n0 rsign → (n0 < loads w)%nat → tripped rsign w →
  primaryLoop rsign partIDs w = (w', r) →
  ∃ l, trace w' = trace w ++ l ∧ moveFree l ∧ (length l ≤ 2)%nat.
Proof.
  intros Hpers Hn0 Htr. destruct partIDs as [|partID partIDs]; simpl.
  - intros [= <- <-]. exists []. rewrite app_nil_r.
    split_and!; [done|constructor|simpl; lia].
  - destruct (aliveness (probes w)); simpl.
    + rewrite decide_True
        by (intros Heq; by apply (tripped_next_load n0 rsign w)).
      intros [= <- <-]. simpl. eexists. rewrite <- app_assoc.
      split_and!; [done| |simpl; lia]. calm_events.
    + intros [= <- <-]. simpl. eexists.
      split_and!; [done| |simpl; lia]. calm_events.
Qed.

Lemma primaryLoop_calm n0 rsign partIDs w w' r :
  persistent n0 rsign → (n0 < loads w)%nat → ¬ tripped rsign w →
  primaryLoop rsign partIDs w = (w', r) →
  ∃ l, trace w' = trace w ++ l ∧ settles rsign 3 l.
Proof.
  intros Hpers. revert w w' r.
  induction partIDs as [|partID partIDs IH]; intros w w' r Hn0 Hun; simpl.
  - intros [= <- <-]. exists []. rewrite app_nil_r. split; [done|].
    apply calm_settles. constructor.
  - destruct (aliveness (probes w)) eqn:Halive; simpl.
    2:{ intros [= <- <-]. simpl. eexists. split; [done|].
        apply calm_settles. calm_events. }
    destruct (decide (rsign ≠ routingSignature (loads w))) as [Hne|Heq].
    { intros [= <- <-]. simpl. eexists. rewrite <- app_assoc. split; [done|].
      exists [EvIsAlive true], [EvLoadSignature (routingSignature (loads w))].
      split_and!; [done| | |simpl; lia]; calm_events. }
    apply dec_stable in Heq.
    set (w2 := mkWorld (node w) (network w) (S (loads w)) (S (probes w))
                 ((trace w ++ [EvIsAlive true]) ++
                  [EvLoadSignature (routingSignature (loads w))])).
    assert (Hun2 : ¬ tripped rsign w2) by (unfold tripped; simpl; congruence).
    assert (Hhead : calm rsign [EvIsAlive true;
                      EvLoadSignature (routingSignature (loads w))]).
    { unfold calm. repeat constructor; [by intros ? [=]|].
      intros v [= <-]. done. }
    assert (Hskip : ∀ w' r, primaryLoop rsign partIDs w2 = (w', r) →
              ∃ l, trace w' = trace w ++ l ∧ settles rsign 3 l).
    { intros w3 r3 Hrest.
      apply IH in Hrest as (l & Ht & Hl); [|simpl; lia|done].
      simpl in Ht. rewrite <- !app_assoc in Ht. eexists. split; [exact Ht|].
      by apply (settles_prefix rsign 3 [_; _]). }
    destruct (partitions (node w) !! partID) as [part|].
    2:{ intros [= <- <-]. simpl. eexists. rewrite <- app_assoc.
        split; [done|]. by apply calm_settles. }
    destruct (decide (part_length part = 0)); [by apply Hskip|].
    destruct (part_owner part) as [owner|why].
    2:{ intros [= <- <-]. simpl. eexists. rewrite <- app_assoc.
        split; [done|]. by apply calm_settles. }
    destruct (cmpMembersByName owner (this (node w))); [by apply Hskip|].
    destruct (rangeWith _ _ _) as [[w3 part3] c] eqn:Hrange.
    apply moveRange_calm in Hrange as (Hle & lR & HtR & HR). simpl in *.
    intros Hrest.
    destruct HR as [(Hc & Hun3)|(c0 & v & -> & Hc0 & Htr3)].
    + apply IH in Hrest as (l & Ht & Hl); [|simpl; lia|simpl; tauto].
      simpl in Ht. rewrite HtR, <- !app_assoc in Ht.
      eexists. split; [exact Ht|].
      apply (settles_prefix rsign 3 [_; _]); [done|].
      by apply settles_prefix.
    + apply (primaryLoop_tripped n0) in Hrest as (l & Ht & Hl & Hlen);
        [|done|simpl; lia|done].
      simpl in Ht. rewrite HtR, <- !app_assoc in Ht.
      eexists. split; [exact Ht|].
      apply (settles_prefix rsign 3 [_; _]); [done|].
      exists c0, ([EvLoadSignature v] ++ l).
      split_and!; [done|done| |simpl; lia].
      apply moveFree_app; [calm_events|done].
Qed.

(** Once tripped, the loop over the recorded ids breaks at its first id. *)
Lemma idsLoop_tripped n0 rsign partID ids w part w' part' :
  persistent n0 rsign → (n0 < loads w)%nat → tripped rsign w →
  idsLoop rsign partID ids (w, part) = (w', part') →
  (loads w ≤ loads w')%nat ∧ tripped rsign w' ∧
  ∃ l, trace w' = trace w ++ l ∧ moveFree l.
Proof.
  intros Hpers Hn0 Htr. destruct ids as [|id ids]; simpl.
  - intros [= <- <-]. split_and!; [done..|]. exists []. rewrite app_nil_r.
    split; [done|constructor].
  - destruct (aliveness (probes w)); simpl.
    + pose proof (tripped_next_load n0 rsign w Hpers Hn0 Htr) as Hnext.
      rewrite decide_True by congruence.
      intros [= <- <-]. simpl. split_and!; [lia|by unfold tripped|].
      eexists. rewrite <- app_assoc. split; [done|]. calm_events.
    + intros [= <- <-]. simpl. split_and!; [lia|done|].
      eexists. split; [done|]. calm_events.
Qed.

Lemma idsLoop_calm n0 rsign partID ids w part w' part' :
  persistent n0 rsign → (n0 < loads w)%nat → ¬ tripped rsign w →
  idsLoop rsign partID ids (w, part) = (w', part') →
  (loads w ≤ loads w')%nat ∧
  ∃ l, trace w' = trace w ++ l ∧
    ((calm rsign l ∧ ¬ tripped rsign w') ∨
     (winds_down rsign l ∧ tripped rsign w')).
Proof.
  intros Hpers. revert w part.
  induction ids as [|id ids IH]; intros w part Hn0 Hun; simpl.
  - intros [= <- <-]. split; [done|]. exists []. rewrite app_nil_r.
    split; [done|]. left. split; [constructor|done].
  - destruct (aliveness (probes w)) eqn:Halive; simpl.
    2:{ intros [= <- <-]. simpl. split; [lia|]. eexists. split; [done|].
        left. split; [calm_events|done]. }
    destruct (decide (rsign ≠ routingSignature (loads w))) as [Hne|Heq].
    { intros [= <- <-]. simpl. split; [lia|]. eexists.
      rewrite <- app_assoc. split; [done|]. right. split; [|by unfold tripped].
      exists [EvIsAlive true], [EvLoadSignature (routingSignature (loads w))].
      split_and!; [done|..]; calm_events. }
    apply dec_stable in Heq.
    set (w2 := mkWorld (node w) (network w) (S (loads w)) (S (probes w))
                 ((trace w ++ [EvIsAlive true]) ++
                  [EvLoadSignature (routingSignature (loads w))])).
    assert (Hun2 : ¬ tripped rsign w2) by (unfold tripped; simpl; congruence).
    assert (Hhead : calm rsign [EvIsAlive true;
                      EvLoadSignature (routingSignature (loads w))]).
    { unfold calm. repeat constructor; [by intros ? [=]|].
      intros v [= <-]. done. }
    destruct (FindMemberByID id) as [owner|].
    + destruct (rangeWith _ _ _) as [[w3 part3] c] eqn:Hrange.
      apply moveRange_calm in Hrange as (Hle & lR & HtR & HR). simpl in *.
      intros Hrest.
      destruct HR as [(Hc & Hun3)|(c0 & v & -> & Hc0 & Htr3)].
      * apply IH in Hrest as (Hle' & l & Ht & Hl); [|lia|tauto].
        split; [lia|]. rewrite HtR, <- !app_assoc in Ht.
        eexists. split; [exact Ht|].
        destruct Hl as [(Hcl & Hunl)|(Hwd & Htrl)]; [left|right];
          (split; [|done]).
        -- apply (calm_app rsign [_; _]); [done|]. by apply calm_app.
        -- apply (winds_down_prefix rsign [_; _]); [done|].
           by apply winds_down_prefix.
      * apply (idsLoop_tripped n0) in Hrest as (Hle' & Htr' & l & Ht & Hl);
          [|done|lia|done].
        split; [lia|]. rewrite HtR, <- !app_assoc in Ht.
        eexists. split; [exact Ht|]. right. split; [|done].
        apply (winds_down_prefix rsign [_; _]); [done|].
        exists c0, ([EvLoadSignature v] ++ l). split_and!; [done..|].
        apply moveFree_app; [calm_events|done].
    + intros Hrest.
      apply IH in Hrest as (Hle' & l & Ht & Hl); [|simpl; lia|done].
      simpl in *. split; [lia|]. rewrite <- !app_assoc in Ht.
      eexists. split; [exact Ht|].
      destruct Hl as [(Hcl & Hunl)|(Hwd & Htrl)]; [left|right];
        (split; [|done]).
      * by apply (calm_app rsign [_; _]).
      * by apply (winds_down_prefix rsign [_; _]).
Qed.

Lemma backupLoop_tripped n0 rsign partIDs w w' r :
  persistent n0 rsign → (n0 < loads w)%nat → tripped rsign w →
  backupLoop rsign partIDs w = (w', r) →
  ∃ l, trace w' = trace w ++ l ∧ moveFree l.
Proof.
  intros Hpers. revert w w' r.
  induction partIDs as [|partID partIDs IH]; intros w w' r Hn0 Htr; simpl.
  - intros [= <- <-]. exists []. rewrite app_nil_r. split; [done|constructor].
  - set (w0 := mkWorld (node w) (network w) (loads w) (S (probes w))
                 (trace w ++ [EvIsAlive (aliveness (probes w))])).
    assert (Hskip : ∀ w' r, backupLoop rsign partIDs w0 = (w', r) →
              ∃ l, trace w' = trace w ++ l ∧ moveFree l).
    { intros w1 r1 Hrest. apply IH in Hrest as (l & Ht & Hl); [|done..].
      simpl in Ht. rewrite <- app_assoc in Ht. eexists. split; [exact Ht|].
      apply (moveFree_app [_]); [calm_events|done]. }
    destruct (aliveness (probes w)) eqn:Halive; simpl.
    2:{ intros [= <- <-]. simpl. eexists. split; [done|]. calm_events. }
    destruct (backups (node w) !! partID) as [part|].
    2:{ intros [= <- <-]. simpl. eexists. split; [done|]. calm_events. }
    destruct (decide (part_length part = 0)); [by apply Hskip|].
    destruct (decide (Z.of_nat (length (part_owners part))
                      = ReplicaCount (config (node w)) - 1));
      [by apply Hskip|].
    destruct (tailOwnerIDs _ _ _ _ _) as [ids|why].
    2:{ intros [= <- <-]. simpl. eexists. split; [done|]. calm_events. }
    destruct (idsLoop rsign partID ids (w0, part)) as [w1 part1] eqn:Hids.
    apply (idsLoop_tripped n0) in Hids as (Hle & Htr1 & l1 & Ht1 & Hl1);
      [|done..].
    intros Hrest. apply IH in Hrest as (l & Ht & Hl); [|simpl in *; lia|done].
    simpl in Ht, Ht1. rewrite Ht1, <- !app_assoc in Ht.
    eexists. split; [exact Ht|].
    apply (moveFree_app [_]); [calm_events|]. by apply moveFree_app.
Qed.

Lemma backupLoop_calm n0 rsign partIDs w w' r :
  persistent n0 rsign → (n0 < loads w)%nat → ¬ tripped rsign w →
  backupLoop rsign partIDs w = (w', r) →
  ∃ l, trace w' = trace w ++ l ∧ winds_down rsign l.
Proof.
  intros Hpers. revert w w' r.
  induction partIDs as [|partID partIDs IH]; intros w w' r Hn0 Hun; simpl.
  - intros [= <- <-]. exists []. rewrite app_nil_r. split; [done|].
    apply calm_winds_down. constructor.
  - set (w0 := mkWorld (node w) (network w) (loads w) (S (probes w))
                 (trace w ++ [EvIsAlive (aliveness (probes w))])).
    assert (Hhead : calm rsign [EvIsAlive (aliveness (probes w))])
      by calm_events.
    assert (Hskip : ∀ w' r, backupLoop rsign partIDs w0 = (w', r) →
              ∃ l, trace w' = trace w ++ l ∧ winds_down rsign l).
    { intros w1 r1 Hrest. apply IH in Hrest as (l & Ht & Hl); [|done..].
      simpl in Ht. rewrite <- app_assoc in Ht. eexists. split; [exact Ht|].
      by apply (winds_down_prefix rsign [_]). }
    destruct (aliveness (probes w)) eqn:Halive; simpl.
    2:{ intros [= <- <-]. simpl. eexists. split; [done|].
        by apply calm_winds_down. }
    destruct (backups (node w) !! partID) as [part|].
    2:{ intros [= <- <-]. simpl. eexists. split; [done|].
        by apply calm_winds_down. }
    destruct (decide (part_length part = 0)); [by apply Hskip|].
    destruct (decide (Z.of_nat (length (part_owners part))
                      = ReplicaCount (config (node w)) - 1));
      [by apply Hskip|].
    destruct (tailOwnerIDs _ _ _ _ _) as [ids|why].
    2:{ intros [= <- <-]. simpl. eexists. split; [done|].
        by apply calm_winds_down. }
    destruct (idsLoop rsign partID ids (w0, part)) as [w1 part1] eqn:Hids.
    apply (idsLoop_calm n0) in Hids as (Hle & l1 & Ht1 & Hl1); [|done..].
    intros Hrest. simpl in Ht1.
    destruct Hl1 as [(Hc1 & Hun1)|(Hwd1 & Htr1)].
    + apply IH in Hrest as (l & Ht & Hl); [|simpl in *; lia|done].
      simpl in Ht. rewrite Ht1, <- !app_assoc in Ht.
      eexists. split; [exact Ht|].
      apply (winds_down_prefix rsign [_]); [done|].
      by apply winds_down_prefix.
    + apply (backupLoop_tripped n0) in Hrest as (l & Ht & Hl);
        [|done|simpl in *; lia|done].
      simpl in Ht. rewrite Ht1, <- !app_assoc in Ht.
      eexists. split; [exact Ht|].
      apply (winds_down_prefix rsign [_]); [done|].
      by apply winds_down_suffix.
Qed.

(** C4.  In a pass that snapshotted [rsign] with its first load, and under a
    signature that does not come back to [rsign] once it has left it: after
    a load that returned another signature no move is started any more.  In
    the primary pass at most two more events follow such a load (the
    [isAlive] probe and the load at the next partition boundary, where the
    loop breaks).  In both passes the map iteration of a partition stops
    after the current map when the load that follows its move sees another
    signature: the remaining maps are not visited. *)
Theorem no_move_after_signature_change (w : World) :
  let rsign := routingSignature (loads w) in
  persistent (loads w) rsign →
  (∀ w' r, rebalancePrimaryPartitions w = (w', r) →
     ∃ l, trace w' = trace w ++ l ∧
       ∀ l1 v l2, l = l1 ++ EvLoadSignature v :: l2 → v ≠ rsign →
         moveFree l2 ∧ (length l2 ≤ 2)%nat) ∧
  (∀ w' r, rebalanceBackupPartitions w = (w', r) →
     ∃ l, trace w' = trace w ++ l ∧
       ∀ l1 v l2, l = l1 ++ EvLoadSignature v :: l2 → v ≠ rsign →
         moveFree l2) ∧
  (∀ sign partID owner w0 part name dm rest,
     routingSignature (loads w0) ≠ sign →
     rangeWith (moveVisit sign partID owner) ((name, dm) :: rest) (w0, part)
     = ((moveVisit sign partID owner (w0, part) name dm).1, Stop)).
Proof.
  intros rsign Hpers.
  set (w1 := mkWorld (node w) (network w) (S (loads w)) (probes w)
               (trace w ++ [EvLoadSignature rsign])).
  assert (Hun1 : ¬ tripped rsign w1) by (unfold tripped; simpl; tauto).
  assert (Hhead : calm rsign [EvLoadSignature rsign]).
  { unfold calm. repeat constructor. by intros v [= <-]. }
  split_and!.
  - intros w' r. unfold rebalancePrimaryPartitions. simpl. intros Hloop.
    apply (primaryLoop_calm (loads w)) in Hloop as (l & Ht & Hl);
      [|done|simpl; lia|done].
    simpl in Ht. rewrite <- app_assoc in Ht. eexists. split; [exact Ht|].
    intros l1 v l2 Heq Hv.
    pose proof (settles_prefix rsign 3 _ _ Hhead Hl) as Hall.
    destruct (settles_after_change rsign 3 _ l1 v l2 Hall Hv Heq) as [Hmf Hlen].
    split; [done|lia].
  - intros w' r. unfold rebalanceBackupPartitions. simpl. intros Hloop.
    apply (backupLoop_calm (loads w)) in Hloop as (l & Ht & Hl);
      [|done|simpl; lia|done].
    simpl in Ht. rewrite <- app_assoc in Ht. eexists. split; [exact Ht|].
    intros l1 v l2 Heq Hv.
    pose proof (winds_down_prefix rsign _ _ Hhead Hl) as Hall.
    exact (winds_down_after_change rsign _ l1 v l2 Hall Hv Heq).
  - intros sign partID owner w0 part name dm rest Hne.
    rewrite rangeWith_cons.
    destruct (moveVisit_spec sign partID owner w0 part name dm)
      as (net1 & part1 & err & _ & ->).
    by rewrite decide_False by congruence.
Qed.

End Properties.

(** * Delivering a payload twice *)

Section Idempotence.
Context {SE : StorageEngine} {CO : Collaborators}.
Context {storage_ok : StorageContract SE} {resolver_ok : ResolverContract CO}.




Lemma selectVersionForMerge_settled dm hkey ent :
  settled (storage dm) hkey ent →
  ∃ winner, Get (storage dm) hkey = Ok winner ∧
            selectVersionForMerge dm hkey ent = Ret (Ok winner).
Proof.
  intros (winner & HG & Hs). exists winner. split; [done|].
  unfold selectVersionForMerge. by rewrite HG, Hs.
Qed.






Lemma mergeCache_storage dm data : storage (mergeCache dm data) = storage dm.
Proof. unfold mergeCache. by destruct (dm_cache dm) as [[[log|]]|]. Qed.


Lemma part_store_twice part name dm dm' :
  part_store (part_store part name dm) name dm' = part_store part name dm'.
Proof. unfold part_store. simpl. by rewrite insert_insert_eq. Qed.




End Idempotence.

(** * The table-backed engine and the sample cluster meet the contracts *)

Lemma Arena_contract : StorageContract Arena.engine.
Proof.
  split; simpl.
  - intros s h e Hin. apply elem_of_map_to_list in Hin.
    unfold Arena.get. by rewrite Hin.
  - intros s. apply NoDup_fst_map_to_list.
  - intros s h e s' r. unfold Arena.put.
    destruct (Arena.room s); intros [= <- <-]; auto.
  - intros s h e s' r. unfold Arena.put, Arena.get.
    destruct (Arena.room s); intros [= <- <-]; simpl;
      by rewrite lookup_insert_eq.
  - intros s h e s' r h' Hput Hne. unfold Arena.put in Hput. unfold Arena.get.
    destruct (Arena.room s); injection Hput as <- <-; simpl;
      by rewrite lookup_insert_ne.
  - intros s h e s' r. unfold Arena.put.
    destruct (Arena.room s); intros [= <- <-]; simpl;
      intros Hz;
      assert (size (<[h:=e]> (Arena.cells s)) = 0%nat) as Hsize by lia;
      apply map_size_empty_iff in Hsize;
      by apply insert_non_empty in Hsize.
Qed.

Lemma insertVersion_perm v sorted :
  Cluster.insertVersion v sorted ≡ₚ v :: sorted.
Proof.
  induction sorted as [|x xs IH]; simpl; [done|].
  destruct (decide _); [done|]. rewrite IH. apply Permutation_swap.
Qed.

Lemma Cluster_resolver signature alive :
  ResolverContract (Cluster.collaborators signature alive).
Proof.
  split. simpl. intros vs. unfold Cluster.sortByTimestamp.
  induction vs as [|v vs IH]; simpl; [done|].
  rewrite insertVersion_perm. by rewrite IH.
Qed.

Lemma Arena_get_only_misses (s : Arena.Table) (hkey : Z) (err : Error) :
  Arena.get s hkey = Err err → err = ErrKeyNotFound.
Proof. unfold Arena.get. destruct (Arena.cells s !! hkey); by intros [= <-]. Qed.

Lemma Cluster_sort_nonempty signature alive (a b : version) :
  sortVersions (Collaborators := Cluster.collaborators signature alive) [a; b]
  ≠ [].
Proof.
  intros Hnil.
  pose proof (sortVersions_perm (ResolverContract := Cluster_resolver signature alive)
                [a; b]) as Hperm.
  rewrite Hnil in Hperm. by apply Permutation_nil_cons in Hperm.
Qed.

(** * The code on concrete clusters *)

Section Scenarios.
Import Cluster.
#[local] Existing Instance Arena.engine.
#[local] Existing Instance quiet.

(** C6, counterexample.  On a node where the map [m] has no cache, a payload
    with the access log [{1: 50, 2: 75}] is merged and hkey 2, absent
    locally, does not carry the timestamp 75 afterwards: the statement
    without a condition on the local map fails. *)
Lemma incoming_log_dropped_without_local_cache :
  ¬ incomingLogAlwaysMerged (SE := Arena.engine) (CO := quiet).
Proof.
  intros Hclaim.
  pose (part := partWith false {["m" := plainMap]} [bob]).
  pose (db := nodeOf bob 1 1 {[0 := part]} ∅).
  specialize (Hclaim db part incoming plainMap
                (mkDMap None (Arena.mkTable {[1 := Arena.mkCell 20 5]} 3))
                eq_refl).
  assert (Hafter : part_m (mergeDMaps db part incoming).1.2 !! BoxName incoming
                   = Some (mkDMap None
                             (Arena.mkTable {[1 := Arena.mkCell 20 5]} 3)))
    by (vm_compute; reflexivity).
  specialize (Hclaim Hafter 2 75 eq_refl eq_refl).
  vm_compute in Hclaim. discriminate Hclaim.
Qed.

(** C1, witness.  [bob] owns partition 0 and merges the payload: [StatusOK].
    After a restart ([bob2]: same name, another id) the owners list no
    longer contains the node by id: an error wrapping [ErrInvalidArgument],
    and the node is unchanged. *)
Lemma moveDMapOperation_checks_witness :
  (moveDMapOperation
     (nodeOf bob 1 1 {[0 := partWith false {["m" := loggedMap]} [bob]]} ∅)
     (request incoming)).2 = Ret StatusOK ∧
  ∃ err,
    moveDMapOperation
      (nodeOf bob2 1 1 {[0 := partWith false {["m" := loggedMap]} [bob]]} ∅)
      (request incoming)
    = (nodeOf bob2 1 1 {[0 := partWith false {["m" := loggedMap]} [bob]]} ∅,
       Ret (errorResponse err)) ∧
    errorsIs err ErrInvalidArgument = true.
Proof.
  split.
  - pose (part := partWith false {["m" := loggedMap]} [bob]).
    pose (db := nodeOf bob 1 1 {[0 := part]} ∅).
    destruct (moveDMapOperation_checks_then_merges db (request incoming))
      as (_ & _ & _ & Hmerge & _).
    destruct (mergeDMaps db part incoming) as [[db' part'] merged] eqn:Hm.
    destruct (Hmerge incoming part db' part' merged) as [Hrun Hok];
      [reflexivity|by vm_compute|reflexivity| |exact Hm|].
    + exists bob. split; [apply list_elem_of_here|reflexivity].
    + fold part db. rewrite Hrun. simpl. apply Hok.
      assert (Hmerged : (mergeDMaps db part incoming).2 = Ret None)
        by (by vm_compute).
      by rewrite Hm in Hmerged.
  - pose (part := partWith false {["m" := loggedMap]} [bob]).
    pose (db := nodeOf bob2 1 1 {[0 := part]} ∅).
    destruct (moveDMapOperation_checks_then_merges db (request incoming))
      as (_ & _ & Hreject & _ & _).
    apply (Hreject incoming part); [reflexivity|by vm_compute|reflexivity|].
    intros (owner & Hin & Hcmp). apply list_elem_of_singleton in Hin as ->.
    by vm_compute in Hcmp.
Defined.

(** C2, witness.  [alice] moves the map [m] to [bob]: the request is
    acknowledged and the map is gone.  Moving it to a member that cannot be
    reached returns the network error and keeps the map. *)
Lemma moveDMap_deletes_witness :
  (∃ net', moveDMap (CO := quiet) idle (partWith false {["m" := loggedMap]} [bob]) "m"
             loggedMap bob
           = (net', partWith false ∅ [bob], None)) ∧
  moveDMap (CO := quiet) idle (partWith false {["m" := loggedMap]} [bob]) "m" loggedMap dave
  = (idle, partWith false {["m" := loggedMap]} [bob],
     Some (ErrOther "connection refused")).
Proof.
  set (part := partWith false {["m" := loggedMap]} [bob]).
  split.
  - destruct (moveDMap (CO := quiet) idle part "m" loggedMap bob) as [[net' part'] res] eqn:Hm.
    destruct (moveDMap_deletes_iff_all_steps_succeed (CO := quiet) idle part "m" loggedMap bob
                net' part' res Hm) as (Hiff & Hdel & _).
    assert (Hres : res = None).
    { assert ((moveDMap (CO := quiet) idle part "m" loggedMap bob).2 = None) as Hc
        by (by vm_compute).
      by rewrite Hm in Hc. }
    exists net'. rewrite (Hdel Hres), Hres. by vm_compute.
  - destruct (moveDMap (CO := quiet) idle part "m" loggedMap dave) as [[net' part'] res] eqn:Hm.
    destruct (moveDMap_deletes_iff_all_steps_succeed (CO := quiet) idle part "m" loggedMap dave
                net' part' res Hm) as (_ & _ & Hkeep & _).
    assert (Hc : (net', res) = (idle, Some (ErrOther "connection refused"))).
    { assert (((moveDMap (CO := quiet) idle part "m" loggedMap dave).1.1,
               (moveDMap (CO := quiet) idle part "m" loggedMap dave).2)
              = (idle, Some (ErrOther "connection refused"))) as Hc
        by (by vm_compute).
      by rewrite Hm in Hc. }
    injection Hc as -> ->.
    destruct (Hkeep _ eq_refl) as [-> _]. done.
Defined.


(** C5, witness.  On the sample map, hkey 2 is not stored: the incoming cell
    is returned.  Hkey 1 is stored with the later timestamp 20: the local
    cell is position 0 of the sorted pair and is returned. *)
Lemma selectVersionForMerge_witness :
  selectVersionForMerge loggedMap 2 (Arena.mkCell 10 7)
    = Ret (Ok (Arena.mkCell 10 7)) ∧
  selectVersionForMerge loggedMap 1 (Arena.mkCell 10 7)
    = Ret (Ok (Arena.mkCell 20 5)).
Proof.
  split.
  - apply (proj1 (selectVersionForMerge_returns_resolver_choice
                    (SE := Arena.engine) (CO := quiet)
                    loggedMap 2 (Arena.mkCell 10 7))).
    reflexivity.
  - apply (proj2 (proj2 (selectVersionForMerge_returns_resolver_choice
                           (SE := Arena.engine) (CO := quiet)
                           loggedMap 1 (Arena.mkCell 10 7)))
             (Arena.mkCell 20 5)
             (mkVersion (SE := Arena.engine) (Arena.mkCell 20 5)));
      reflexivity.
Defined.

(** C6, witness.  The local log is [{1: 100}], the incoming log is
    [{1: 50, 2: 75}]: after the merge hkey 1 still has 100 and hkey 2 has
    75. *)
Lemma access_log_merge_witness :
  let part := partWith false {["m" := loggedMap]} [bob] in
  let db := nodeOf bob 1 1 {[0 := part]} ∅ in
  ∃ dm', part_m (mergeDMaps db part incoming).1.2 !! "m" = Some dm' ∧
         logOf dm' !! 1 = Some 100 ∧ logOf dm' !! 2 = Some 75.
Proof.
  intros part db.
  destruct (access_log_merge_fills_gaps_only (SE := Arena.engine) (CO := quiet)
              db part incoming) as (Hfill & _).
  destruct (Hfill part loggedMap (mkCache (Some {[1 := 100]})) {[1 := 100]}
              (Arena.mkTable {[1 := Arena.mkCell 10 7]} 4))
    as (dm' & Hdm' & Hlog); [reflexivity|by vm_compute|reflexivity..|].
  exists dm'. split; [exact Hdm'|]. by rewrite !Hlog.
Defined.

(** C7, witness.  The arena of the local map is full: the put of hkey 1
    reports fragmentation, one compaction is started, and the sender gets
    [StatusOK]. *)
Lemma fragmented_put_witness :
  let part := partWith false {["m" := fullMap]} [bob] in
  let db := nodeOf bob 1 1 {[0 := part]} ∅ in
  (mergeVisit "m" (mkMergeEnv db fullMap None) 1 (Arena.mkCell 10 7)).2 = Next ∧
  spawned (me_db (mergeVisit "m" (mkMergeEnv db fullMap None) 1
                    (Arena.mkCell 10 7)).1) = [compactTables "m"] ∧
  (moveDMapOperation db (request incoming)).2 = Ret StatusOK.
Proof.
  intros part db.
  destruct (fragmented_put_is_not_an_error (SE := Arena.engine) (CO := quiet))
    as (Hstep & _ & Hok).
  rewrite (Hstep "m" (mkMergeEnv (SE := Arena.engine) db fullMap None) 1
             (Arena.mkCell 10 7)
             (Arena.mkCell 20 5)
             (Arena.mkTable {[1 := Arena.mkCell 20 5]} 2)
             eq_refl eq_refl).
  split_and!; [done..|].
  apply (Hok Arena_get_only_misses
           (put_signal (StorageContract := Arena_contract))
           (Cluster_sort_nonempty _ _)
           db (request incoming) incoming part part fullMap
           (Arena.mkTable {[1 := Arena.mkCell 10 7]} 4));
    by vm_compute.
Defined.

Lemma flipping_persistent : persistent (CO := flipping) 0 7.
Proof.
  intros n m _ Hle. simpl.
  destruct (n <? 2)%nat eqn:Hn; [done|]. intros _.
  apply Nat.ltb_ge in Hn.
  assert ((m <? 2)%nat = false) as -> by (apply Nat.ltb_ge; lia). done.
Qed.

(** C4, witness.  [alice] hands partitions 0 and 1 over to [bob]; the
    signature changes while the first map of partition 0 is on its way.  The
    map iteration stops after that map, the loop breaks at the boundary of
    partition 1, and the pass ends: one move, and two events after the load
    that saw the change. *)
Lemma no_move_after_signature_change_witness :
  let w := worldOf (CO := flipping) (nodeOf alice 2 1 handoff ∅) idle in
  persistent (CO := flipping) 0 7 ∧
  trace (rebalancePrimaryPartitions w).1
  = [EvLoadSignature 7; EvIsAlive true; EvLoadSignature 7;
     EvMove 0 false "m" bob None; EvLoadSignature 8;
     EvIsAlive true; EvLoadSignature 8] ∧
  ∀ l1 v l2,
    trace (rebalancePrimaryPartitions w).1 = l1 ++ EvLoadSignature v :: l2 →
    v ≠ 7 → moveFree l2 ∧ (length l2 ≤ 2)%nat.
Proof.
  intros w. split; [exact flipping_persistent|]. split; [by vm_compute|].
  destruct (no_move_after_signature_change (SE := Arena.engine)
              (CO := flipping) w flipping_persistent) as (Hprim & _ & _).
  destruct (rebalancePrimaryPartitions w) as [w' r] eqn:Hpass.
  destruct (Hprim w' r eq_refl) as (l & Htrace & Hafter).
  simpl in *. rewrite Htrace. exact Hafter.
Defined.

(** C8, witness.  With one replica configured the rebalancer is the primary
    pass alone.  With two replicas and a backup partition whose owners list
    has one entry, the backup pass starts no move for that partition. *)
Lemma backup_pass_gated_witness :
  let w1 := worldOf (CO := quiet) (nodeOf alice 2 1 handoff ∅) idle in
  let w2 := worldOf (CO := quiet)
              (nodeOf alice 1 2
                 {[0 := partWith false ∅ [alice]]}
                 {[0 := partWith true {["m" := loggedMap]} [bob]]}) idle in
  rebalancer w1 = rebalancePrimaryPartitions w1 ∧
  Forall (λ ev, isMoveOf 0 ev = false) (trace (rebalanceBackupPartitions w2).1).
Proof.
  intros w1 w2. split.
  - destruct (backup_pass_gated_and_skips_satisfied (SE := Arena.engine)
                (CO := quiet) w1) as (Hgate & _ & _).
    rewrite Hgate; [reflexivity|]. by vm_compute.
  - destruct (backup_pass_gated_and_skips_satisfied (SE := Arena.engine)
                (CO := quiet) w2) as (_ & _ & Hskip).
    destruct (rebalanceBackupPartitions w2) as [w' r] eqn:Hpass.
    destruct (Hskip w' r eq_refl) as (l & Htrace & Hnone).
    simpl in *. rewrite Htrace.
    apply (Hnone 0 (partWith true {["m" := loggedMap]} [bob]));
      [reflexivity|by vm_compute].
Defined.


(** C10, witness.  A backup partition with the single owner [bob] on a
    cluster configured with three replicas: the loop visits position 0 and
    then indexes the owners at [-1]; the whole backup pass panics. *)
Lemma backup_tail_loop_witness :
  tailOwnerIDs (nodeOf alice 1 3 ∅ ∅) [bob] (1 - 1 - (3 - 1)) 1 []
    = Panic "index out of range [-1]" ∧
  (rebalanceBackupPartitions
     (worldOf (CO := quiet)
        (nodeOf alice 1 3 ∅ {[0 := partWith true {["m" := loggedMap]} [bob]]})
        idle)).2
    = Panic "index out of range [-1]".
Proof.
  split; [|by vm_compute].
  apply (proj2 (proj1 (backup_tail_loop_indexes_below_zero
                         (SE := Arena.engine) (CO := quiet)
                         (nodeOf alice 1 3 ∅ ∅) [bob] 3) ltac:(simpl; lia))).
Defined.

End Scenarios.

(** * Further properties of the merge *)

Section MergeResult.
Context {SE : StorageEngine} {CO : Collaborators}.
Context {storage_ok : StorageContract SE}.

Lemma mergeIteration_stopped name kvs env :
  (rangeWith (mergeVisit name) kvs env).2 = Stop →
  is_Some (mergeErr (rangeWith (mergeVisit name) kvs env).1).
Proof.
  revert env. induction kvs as [|[hkey ent] kvs IH]; intros env; [done|].
  rewrite rangeWith_cons.
  destruct (mergeVisit_cases name env hkey ent)
    as [(why & _ & ->)|[(e & Hsel & ->)|[(w & s & _ & _ & ->)
       |[(w & s & _ & _ & ->)|(w & s & e & _ & HP & Hne & ->)]]]]; simpl;
    try done; try (by intros _; eexists); apply IH.
Qed.

Lemma mergeIteration_resolved name kvs env env' :
  NoDup kvs.*1 →
  rangeWith (mergeVisit name) kvs env = (env', Next) →
  (∀ hkey ent, (hkey, ent) ∈ kvs →
     merged_entry (Get (storage (me_dm env)) hkey) ent
       (Get (storage (me_dm env')) hkey)) ∧
  (∀ hkey, hkey ∉ kvs.*1 →
     Get (storage (me_dm env')) hkey = Get (storage (me_dm env)) hkey).
Proof.
  revert env. induction kvs as [|[h0 e0] kvs IH]; intros env Hnodup.
  - intros [= <-]. split; [|done]. intros h e Hin. by apply elem_of_nil in Hin.
  - rewrite rangeWith_cons. rewrite fmap_cons in Hnodup.
    apply NoDup_cons in Hnodup as [Hfresh Hnodup].
    assert (Hstep : ∀ db' winner str' r,
              selectVersionForMerge (me_dm env) h0 e0 = Ret (Ok winner) →
              Put (storage (me_dm env)) h0 winner = (str', r) →
              rangeWith (mergeVisit name) kvs
                (mkMergeEnv db' (mkDMap (dm_cache (me_dm env)) str') None)
              = (env', Next) →
              (∀ hkey ent, (hkey, ent) ∈ (h0, e0) :: kvs →
                 merged_entry (Get (storage (me_dm env)) hkey) ent
                   (Get (storage (me_dm env')) hkey)) ∧
              (∀ hkey, hkey ∉ h0 :: kvs.*1 →
                 Get (storage (me_dm env')) hkey
                 = Get (storage (me_dm env)) hkey)).
    { intros db' winner str' r Hsel HP Hrest.
      destruct (IH _ Hnodup Hrest) as [Hin Hout]. simpl in Hin, Hout.
      split.
      - intros h e Hhe. apply elem_of_cons in Hhe as [[= -> ->]|Hhe].
        + rewrite (Hout h0 Hfresh), (get_put_eq _ _ _ _ _ HP).
          unfold selectVersionForMerge in Hsel. unfold merged_entry.
          destruct (Get (storage (me_dm env)) h0) as [cur|err].
          * destruct (sortVersions _ !! 0%nat) as [v|]; [|done].
            injection Hsel as <-. by exists v.
          * destruct (decide (err = ErrKeyNotFound)); [|done].
            by injection Hsel as <-.
        + assert (h0 ≠ h) as Hne.
          { intros <-. apply Hfresh. apply list_elem_of_fmap.
            by exists (h0, e). }
          rewrite <- (get_put_ne _ _ _ _ _ _ HP Hne). by apply Hin.
      - intros h Hh. apply not_elem_of_cons in Hh as [Hne Hh].
        rewrite (Hout h Hh). by apply (get_put_ne _ _ _ _ _ _ HP). }
    destruct (mergeVisit_cases name env h0 e0)
      as [(why & _ & ->)|[(e & Hsel & ->)|[(w & s & Hsel & HP & ->)
         |[(w & s & Hsel & HP & ->)|(w & s & e & _ & HP & Hne & ->)]]]];
      try done; by eapply Hstep.
Qed.

(** X1.  A merge into a map that already holds keys and that returns nil
    leaves, under every hkey of the payload, the incoming entry when the key
    was not stored and position 0 of the sorted pair of the stored and the
    incoming version when it was; keys that the payload does not carry keep
    what they had. *)
Theorem mergeDMaps_keeps_the_winner_of_each_key
    (db : Olric) (part : partition) (data : dmapbox) :
  ∀ part0 dm str db' part',
    getOrCreateDMap part (BoxName data) = (part0, Ok dm) →
    Import (Payload data) = Ok str →
    Len (storage dm) ≠ 0 →
    mergeDMaps db part data = (db', part', Ret None) →
    ∃ dm', part_m part' !! BoxName data = Some dm' ∧
      (∀ hkey ent, (hkey, ent) ∈ Range str →
         merged_entry (Get (storage dm) hkey) ent (Get (storage dm') hkey)) ∧
      (∀ hkey, hkey ∉ (Range str).*1 →
         Get (storage dm') hkey = Get (storage dm) hkey).
Proof.
  intros part0 dm str db' part' Hget Himp Hlen Hmerge.
  unfold mergeDMaps in Hmerge. rewrite Hget, Himp in Hmerge.
  rewrite mergeCache_storage in Hmerge.
  rewrite decide_False in Hmerge by done.
  destruct (rangeWith (mergeVisit (BoxName data)) (Range str)
              (mkMergeEnv db (mergeCache dm data) None))
    as [env c] eqn:Hrange.
  assert (c = Next) as ->.
  { destruct c as [| |why]; [done| |by injection Hmerge].
    pose proof (mergeIteration_stopped (BoxName data) (Range str)
                  (mkMergeEnv db (mergeCache dm data) None)) as Hstop.
    rewrite Hrange in Hstop. destruct (Hstop eq_refl) as [err Herr].
    injection Hmerge as _ _ Hnil. simpl in Herr. congruence. }
  injection Hmerge as <- <- Hnil.
  destruct (mergeIteration_resolved _ _ _ _ (range_nodup str) Hrange)
    as [Hin Hout].
  simpl in Hin, Hout. rewrite mergeCache_storage in Hin, Hout.
  exists (me_dm env). split; [apply lookup_insert_eq|]. by split.
Qed.

End MergeResult.

(** * What the receiver touches *)

Section Receiver.
Context {SE : StorageEngine} {CO : Collaborators}.

Lemma mergeIteration_accounting name kvs env :
  this (me_db (rangeWith (mergeVisit name) kvs env).1) = this (me_db env) ∧
  config (me_db (rangeWith (mergeVisit name) kvs env).1) = config (me_db env) ∧
  partitions (me_db (rangeWith (mergeVisit name) kvs env).1)
    = partitions (me_db env) ∧
  backups (me_db (rangeWith (mergeVisit name) kvs env).1) = backups (me_db env) ∧
  ∃ k, wg (me_db (rangeWith (mergeVisit name) kvs env).1)
         = (wg (me_db env) + k)%nat ∧
       spawned (me_db (rangeWith (mergeVisit name) kvs env).1)
         = spawned (me_db env) ++ replicate k (compactTables name).
Proof.
  revert env. induction kvs as [|[hkey ent] kvs IH]; intros env.
  - simpl. split_and!; [done..|]. exists 0%nat. simpl.
    by rewrite Nat.add_0_r, app_nil_r.
  - rewrite rangeWith_cons.
    destruct (mergeVisit_cases name env hkey ent)
      as [(why & _ & ->)|[(e & Hsel & ->)|[(w & s & _ & _ & ->)
         |[(w & s & _ & _ & ->)|(w & s & e & _ & HP & Hne & ->)]]]]; simpl.
    1,2,5: split_and!; [done..|]; exists 0%nat; simpl;
           by rewrite Nat.add_0_r, app_nil_r.
    + apply (IH (mkMergeEnv (me_db env)
                   (mkDMap (dm_cache (me_dm env)) s) None)).
    + destruct (IH (mkMergeEnv (spawnCompaction (me_db env) name)
                      (mkDMap (dm_cache (me_dm env)) s) None))
        as (Ht & Hc & Hp & Hb & k & Hwg & Hsp).
      simpl in *. split_and!; [done..|]. exists (S k). split; [lia|].
      rewrite Hsp, <- app_assoc. done.
Qed.

Lemma getOrCreateDMap_frame part name part0 res :
  getOrCreateDMap part name = (part0, res) →
  part_id part0 = part_id part ∧ part_backup part0 = part_backup part ∧
  part_owners part0 = part_owners part ∧
  ∀ other, other ≠ name → part_m part0 !! other = part_m part !! other.
Proof.
  unfold getOrCreateDMap. destruct (part_m part !! name).
  - by intros [= <- <-].
  - destruct (createDMap name); intros [= <- <-]; [|done].
    simpl. split_and!; [done..|]. intros other Hne. by rewrite lookup_insert_ne.
Qed.

Lemma mergeDMaps_frame db part data db' part' res :
  mergeDMaps db part data = (db', part', res) →
  this db' = this db ∧ config db' = config db ∧
  partitions db' = partitions db ∧ backups db' = backups db ∧
  (∃ k, wg db' = (wg db + k)%nat ∧
        spawned db' = spawned db ++ replicate k (compactTables (BoxName data))) ∧
  part_id part' = part_id part ∧ part_backup part' = part_backup part ∧
  part_owners part' = part_owners part ∧
  ∀ other, other ≠ BoxName data → part_m part' !! other = part_m part !! other.
Proof.
  unfold mergeDMaps.
  destruct (getOrCreateDMap part (BoxName data)) as [part0 [dm|err]] eqn:Hget;
    apply getOrCreateDMap_frame in Hget as (Hid & Hb & Ho & Hm).
  2:{ intros [= <- <- <-]. split_and!; try done.
      exists 0%nat. by rewrite Nat.add_0_r, app_nil_r. }
  assert (Hstore : ∀ dm', ∀ other, other ≠ BoxName data →
            part_m (part_store part0 (BoxName data) dm') !! other
            = part_m part !! other).
  { intros dm' other Hne. simpl. rewrite lookup_insert_ne by done. by apply Hm. }
  destruct (Import (Payload data)) as [str|err].
  2:{ intros [= <- <- <-]. split_and!; try done; [|by apply Hstore].
      exists 0%nat. by rewrite Nat.add_0_r, app_nil_r. }
  destruct (decide (Len (storage (mergeCache dm data)) = 0)).
  { intros [= <- <- <-]. split_and!; try done; [|by apply Hstore].
    exists 0%nat. by rewrite Nat.add_0_r, app_nil_r. }
  pose proof (mergeIteration_accounting (BoxName data) (Range str)
                (mkMergeEnv db (mergeCache dm data) None))
    as (Ht & Hc & Hp & Hbk & Hk).
  destruct (rangeWith _ _ _) as [env c]. simpl in *.
  intros [= <- <- <-]. split_and!; [done..|by apply Hstore].
Qed.

Lemma partitionOf_set db backup partID part backup' partID' :
  partitionOf (setPartition db backup partID part) backup' partID'
  = if decide ((backup', partID') = (backup, partID)) then Some part
    else partitionOf db backup' partID'.
Proof.
  unfold partitionOf, setPartition.
  destruct (decide ((backup', partID') = (backup, partID))) as [Heq|Hne].
  - injection Heq as -> ->. destruct backup; simpl; by rewrite lookup_insert_eq.
  - destruct backup, backup'; simpl; try done;
      rewrite lookup_insert_ne; congruence.
Qed.

(** X2.  Whatever a MOVE_DMAP request carries, the handler leaves the
    identity and the configuration of the node alone, changes no partition
    but the one the payload names, and in that partition neither the owners
    nor any map other than the named one; the wait group grows by exactly
    the number of compaction goroutines it started, all of them for the
    named map. *)
Theorem moveDMapOperation_touches_only_the_named_map
    (db : Olric) (r : SystemMessage) :
  ∀ db' resp,
    moveDMapOperation db r = (db', resp) →
    this db' = this db ∧ config db' = config db ∧
    (∃ k name, wg db' = (wg db + k)%nat ∧
               spawned db' = spawned db ++ replicate k (compactTables name)) ∧
    (∀ err, Unmarshal (Value r) = Err err → db' = db) ∧
    (∀ box, Unmarshal (Value r) = Ok box →
       (∀ backup partID,
          (backup, partID) ≠ (Backup box, PartID box) →
          partitionOf db' backup partID = partitionOf db backup partID) ∧
       (∀ part, partitionOf db (Backup box) (PartID box) = Some part →
          ∃ part', partitionOf db' (Backup box) (PartID box) = Some part' ∧
            part_id part' = part_id part ∧
            part_backup part' = part_backup part ∧
            part_owners part' = part_owners part ∧
            ∀ other, other ≠ BoxName box →
              part_m part' !! other = part_m part !! other)).
Proof.
  intros db' resp. unfold moveDMapOperation.
  assert (Hsame : ∀ resp0, (db, resp0) = (db', resp) →
            this db' = this db ∧ config db' = config db ∧
            (∃ k name, wg db' = (wg db + k)%nat ∧
               spawned db' = spawned db ++ replicate k (compactTables name)) ∧
            (∀ err, Unmarshal (Value r) = Err err → db' = db) ∧
            (∀ box, Unmarshal (Value r) = Ok box →
               (∀ backup partID,
                  (backup, partID) ≠ (Backup box, PartID box) →
                  partitionOf db' backup partID = partitionOf db backup partID) ∧
               (∀ part, partitionOf db (Backup box) (PartID box) = Some part →
                  ∃ part', partitionOf db' (Backup box) (PartID box) = Some part' ∧
                    part_id part' = part_id part ∧
                    part_backup part' = part_backup part ∧
                    part_owners part' = part_owners part ∧
                    ∀ other, other ≠ BoxName box →
                      part_m part' !! other = part_m part !! other))).
  { intros resp0 [= <- _]. split_and!; try done.
    - exists 0%nat, "". by rewrite Nat.add_0_r, app_nil_r.
    - intros box _. split; [done|]. intros part Hpart. by exists part. }
  destruct (isOperable db); [by apply Hsame|].
  destruct (Unmarshal (Value r)) as [box|err] eqn:Hun; [|by apply Hsame].
  destruct (partitionOf db (Backup box) (PartID box)) as [part|] eqn:Hpart;
    [|by apply Hsame].
  destruct (checkOwnership db part); simpl; [|by apply Hsame].
  destruct (mergeDMaps db part box) as [[db1 part1] merged] eqn:Hmerge.
  apply mergeDMaps_frame in Hmerge
    as (Ht & Hc & Hp & Hb & (k & Hwg & Hsp) & Hid & Hbk & Ho & Hm).
  intros Heq.
  assert (Hdb : db' = setPartition db1 (Backup box) (PartID box) part1)
    by (destruct merged as [[?|]|]; by injection Heq as <- _).
  clear Heq. subst db'. split_and!.
  - unfold setPartition. by destruct (Backup box).
  - unfold setPartition. by destruct (Backup box).
  - exists k, (BoxName box). unfold setPartition. by destruct (Backup box).
  - done.
  - intros box0 [= <-]. split.
    + intros backup partID Hne. rewrite partitionOf_set.
      rewrite decide_False by done.
      unfold partitionOf. by rewrite Hp, Hb.
    + intros part0 Hpart0. rewrite Hpart in Hpart0. injection Hpart0 as <-.
      exists part1. rewrite partitionOf_set. by rewrite decide_True.
Qed.

End Receiver.

(** * What the sender deletes, and where it ships *)

Section Sender.
Context {SE : StorageEngine} {CO : Collaborators}.

Lemma acked_app partID name l1 l2 :
  acked partID name (l1 ++ l2) ↔ acked partID name l1 ∨ acked partID name l2.
Proof.
  unfold acked. split.
  - intros (b & o & Hin). apply elem_of_app in Hin as [Hin|Hin]; eauto.
  - intros [(b & o & Hin)|(b & o & Hin)]; exists b, o; apply elem_of_app; eauto.
Qed.

Lemma acked_cons partID name ev l :
  isMove ev = false → acked partID name (ev :: l) ↔ acked partID name l.
Proof.
  intros Hev. unfold acked. split; intros (b & o & Hin); exists b, o.
  - apply elem_of_cons in Hin as [<-|Hin]; done.
  - apply elem_of_cons. by right.
Qed.

Lemma not_acked_elsewhere partID name l :
  Forall (λ ev, isMoveOf partID ev = false) l → ¬ acked partID name l.
Proof.
  intros Hall (b & o & Hin). rewrite Forall_forall in Hall.
  specialize (Hall _ Hin). simpl in Hall. by rewrite bool_decide_true in Hall.
Qed.

Lemma moveDMap_result net part name dm owner net' part' res :
  moveDMap net part name dm owner = (net', part', res) →
  (res = None ∧ part' = part_delete part name) ∨
  (∃ err, res = Some err ∧ part' = part).
Proof.
  intros Hmove.
  destruct (moveDMap_cases net part name dm owner)
    as [(e & _ & Hm)|[(p & e & _ & _ & Hm)|[(p & v & n & e & _ & _ & _ & Hm)
       |(p & v & n & r & _ & _ & _ & Hm)]]];
    rewrite Hm in Hmove; injection Hmove as <- <- <-; eauto.
Qed.

Lemma moveVisit_result rsign partID owner w part name dm :
  ∃ net' part' res,
    ((res = None ∧ part' = part_delete part name) ∨
     (∃ err, res = Some err ∧ part' = part)) ∧
    moveVisit rsign partID owner (w, part) name dm
    = ((mkWorld (node w) net' (S (loads w)) (probes w)
          (trace w ++ [EvMove partID (part_backup part) name owner res;
                       EvLoadSignature (routingSignature (loads w))]),
        part'),
       if decide (rsign = routingSignature (loads w)) then Next else Stop).
Proof.
  unfold moveVisit.
  destruct (moveDMap (network w) part name dm owner) as [[net' part'] res] eqn:Hm.
  exists net', part', res. split; [by eapply moveDMap_result|].
  unfold loadRoutingSignature. simpl. by rewrite <- app_assoc.
Qed.

(** The events of a map iteration and what it leaves of the table. *)
Lemma moveRange_acks rsign partID owner kvs w part w' part' c :
  rangeWith (moveVisit rsign partID owner) kvs (w, part) = ((w', part'), c) →
  part_owners part' = part_owners part ∧
  part_backup part' = part_backup part ∧
  ∃ l, trace w' = trace w ++ l ∧
    Forall (λ ev, match ev with
                  | EvMove q b name o _ =>
                      q = partID ∧ b = part_backup part ∧ o = owner ∧
                      name ∈ kvs.*1
                  | EvLoadSignature _ => True
                  | EvIsAlive _ => False
                  end) l ∧
    ∀ name,
      (part_m part' !! name = None ∨
       part_m part' !! name = part_m part !! name) ∧
      (acked partID name l → part_m part' !! name = None) ∧
      (¬ acked partID name l → part_m part' !! name = part_m part !! name).
Proof.
  revert w part. induction kvs as [|[name0 dm0] kvs IH]; intros w part.
  - intros [= <- <- <-]. split_and!; [done..|]. exists [].
    rewrite app_nil_r. split_and!; [done|constructor|].
    intros name. split_and!; [by right| |done].
    intros (b & o & Hin). by apply elem_of_nil in Hin.
  - rewrite rangeWith_cons.
    destruct (moveVisit_result rsign partID owner w part name0 dm0)
      as (net1 & part1 & res & Hres & ->).
    assert (Hhead : Forall (λ ev, match ev with
                  | EvMove q b name o _ =>
                      q = partID ∧ b = part_backup part ∧ o = owner ∧
                      name ∈ ((name0, dm0) :: kvs).*1
                  | EvLoadSignature _ => True
                  | EvIsAlive _ => False
                  end) [EvMove partID (part_backup part) name0 owner res;
           EvLoadSignature (routingSignature (loads w))]).
    { repeat constructor. }
    assert (Hb1 : part_backup part1 = part_backup part ∧
                  part_owners part1 = part_owners part).
    { destruct Hres as [[_ ->]|(e & _ & ->)]; done. }
    destruct Hb1 as [Hb1 Ho1].
    assert (Hnow : ∀ name,
              (part_m part1 !! name = None ∨
               part_m part1 !! name = part_m part !! name) ∧
              (acked partID name
                 [EvMove partID (part_backup part) name0 owner res;
           EvLoadSignature (routingSignature (loads w))] →
               part_m part1 !! name = None) ∧
              (¬ acked partID name
                   [EvMove partID (part_backup part) name0 owner res;
           EvLoadSignature (routingSignature (loads w))] →
               part_m part1 !! name = part_m part !! name)).
    { intros name. destruct Hres as [[-> ->]|(e & -> & ->)]; simpl.
      - destruct (decide (name0 = name)) as [<-|Hne].
        + rewrite lookup_delete_eq. split_and!; [by left|done|].
          intros Hno. exfalso. apply Hno. exists (part_backup part), owner.
          apply list_elem_of_here.
        + rewrite lookup_delete_ne by done. split_and!; [by right| |done].
          intros (b & o & Hin). apply elem_of_cons in Hin as [Heq|Hin].
          * by simplify_eq.
          * apply elem_of_cons in Hin as [Heq|Hin]; [done|].
            by apply elem_of_nil in Hin.
      - split_and!; [by right| |done].
        intros (b & o & Hin). apply elem_of_cons in Hin as [Heq|Hin]; [done|].
        apply elem_of_cons in Hin as [Heq|Hin]; [done|].
        by apply elem_of_nil in Hin. }
    destruct (decide (rsign = routingSignature (loads w))).
    + intros Hrest.
      apply IH in Hrest as (Ho & Hb & l & Ht & Hl & Hm). simpl in Ht.
      split_and!; [congruence..|].
      exists ([EvMove partID (part_backup part) name0 owner res;
           EvLoadSignature (routingSignature (loads w))] ++ l). rewrite Ht, <- app_assoc. split_and!; [done| |].
      * apply Forall_app. split; [done|].
        eapply Forall_impl; [exact Hl|]. intros [v|b|q b name o err]; try done.
        rewrite Hb1. intros (-> & -> & -> & Hin). split_and!; [done..|].
        rewrite fmap_cons. by apply elem_of_cons; right.
      * intros name. destruct (Hm name) as (Hmono & Hack & Hnack).
        destruct (Hnow name) as (Hmono1 & Hack1 & Hnack1).
        split_and!.
        -- destruct Hmono as [-> | ->]; [by left|done].
        -- intros [Ha|Ha]%acked_app; [|by apply Hack].
           destruct Hmono as [-> | ->]; [done|by apply Hack1].
        -- intros Hno.
           rewrite Hnack by (intros Ha; apply Hno, acked_app; by right).
           apply Hnack1. intros Ha. apply Hno, acked_app. by left.
    + intros [= <- <- <-]. simpl. split_and!; [done..|].
      exists [EvMove partID (part_backup part) name0 owner res;
           EvLoadSignature (routingSignature (loads w))]. split_and!; [done|done|]. apply Hnow.
Qed.

Lemma partitions_set w backup partID part :
  partitions (node (setNodePartition w backup partID part))
  = if backup then partitions (node w)
    else <[partID := part]> (partitions (node w)).
Proof. unfold setNodePartition, setPartition. simpl. by destruct backup. Qed.

Lemma handedOver_untouched (part : option partition) partID l :
  Forall (λ ev, isMoveOf partID ev = false) l →
  handedOver part part partID l.
Proof.
  intros Hnone. unfold handedOver. destruct part as [part|]; [|done].
  exists part. split_and!; [done..|]. intros name. split; [|done].
  intros Ha. by apply not_acked_elsewhere in Ha.
Qed.

Lemma primaryLoop_acks rsign partIDs w w' r :
  NoDup partIDs →
  primaryLoop rsign partIDs w = (w', r) →
  backups (node w') = backups (node w) ∧
  this (node w') = this (node w) ∧
  ∃ l, trace w' = trace w ++ l ∧
    Forall (λ ev, shipsToOwner w ev ∧
                  ∀ q, isMoveOf q ev = true → q ∈ partIDs) l ∧
    ∀ q, handedOver (partitions (node w) !! q) (partitions (node w') !! q) q l.
Proof.
  revert w w' r. induction partIDs as [|partID partIDs IH];
    intros w w' r Hnodup; simpl.
  - intros [= <- <-]. split_and!; [done..|]. exists []. rewrite app_nil_r.
    split_and!; [done|constructor|]. intros q.
    apply handedOver_untouched. constructor.
  - apply NoDup_cons in Hnodup as [Hfresh Hnodup].
    assert (Hquiet : ∀ (pre : list Event) w1,
              node w1 = node w → trace w1 = trace w ++ pre →
              Forall (λ ev, isMove ev = false) pre →
              backups (node w1) = backups (node w) ∧
              this (node w1) = this (node w) ∧
              ∃ l, trace w1 = trace w ++ l ∧
                Forall (λ ev, shipsToOwner w ev ∧
                   ∀ q, isMoveOf q ev = true → q ∈ partID :: partIDs) l ∧
                ∀ q, handedOver (partitions (node w) !! q)
                       (partitions (node w1) !! q) q l).
    { intros pre w1 Hn Ht Hpre. rewrite Hn. split_and!; [done..|].
      exists pre. split_and!; [done| |].
      - eapply Forall_impl; [exact Hpre|]. intros [v|b|q b name o err]; try done.
      - intros q. apply handedOver_untouched.
        eapply Forall_impl; [exact Hpre|]. by intros [v|b|q' b name o err]. }
    assert (Hskip : ∀ (pre : list Event) w1 w' r,
              node w1 = node w → trace w1 = trace w ++ pre →
              Forall (λ ev, isMove ev = false) pre →
              primaryLoop rsign partIDs w1 = (w', r) →
              backups (node w') = backups (node w) ∧
              this (node w') = this (node w) ∧
              ∃ l, trace w' = trace w ++ l ∧
                Forall (λ ev, shipsToOwner w ev ∧
                   ∀ q, isMoveOf q ev = true → q ∈ partID :: partIDs) l ∧
                ∀ q, handedOver (partitions (node w) !! q)
                       (partitions (node w') !! q) q l).
    { intros pre w1 w2 r2 Hn Ht Hpre Hrest.
      apply IH in Hrest as (Hb & Hth & l & Htl & Hl & Hq); [|done].
      rewrite Hn in Hb, Hth, Hq. split_and!; [done..|].
      exists (pre ++ l). rewrite Htl, Ht, <- app_assoc. split_and!; [done| |].
      - apply Forall_app. split.
        + eapply Forall_impl; [exact Hpre|].
          intros [v|b|q b name o err]; try done.
        + eapply Forall_impl; [exact Hl|]. intros ev [Hs Hin]. split.
          * destruct ev as [v|b|q b name o err]; try done.
            simpl in *. by rewrite Hn in Hs.
          * intros q Hq'. apply elem_of_cons. right. by apply Hin.
      - intros q. specialize (Hq q). unfold handedOver in *.
        destruct (partitions (node w) !! q) as [part|]; [|done].
        destruct Hq as (part' & Hp' & Ho & Hm). exists part'.
        split_and!; [done..|]. intros name. destruct (Hm name) as [Ha Hna].
        assert (Hpre' : ¬ acked q name pre).
        { apply not_acked_elsewhere. eapply Forall_impl; [exact Hpre|].
          by intros [v|b|q' b' name' o err]. }
        split.
        + intros [?|?]%acked_app; [done|by apply Ha].
        + intros Hno. apply Hna. intros ?. apply Hno, acked_app. by right. }
    destruct (aliveness (probes w)) eqn:Halive; simpl.
    2:{ intros [= <- <-]. apply (Hquiet [EvIsAlive false]); [done..|].
        by repeat constructor. }
    destruct (decide (rsign ≠ routingSignature (loads w))) as [Hne|Heq].
    { intros [= <- <-].
      apply (Hquiet [EvIsAlive true;
                     EvLoadSignature (routingSignature (loads w))]);
        [done|by rewrite <- app_assoc|by repeat constructor]. }
    set (w2 := mkWorld (node w) (network w) (S (loads w)) (S (probes w))
                 ((trace w ++ [EvIsAlive true]) ++
                  [EvLoadSignature (routingSignature (loads w))])).
    set (pre := [EvIsAlive true; EvLoadSignature (routingSignature (loads w))]).
    assert (Hpre : Forall (λ ev, isMove ev = false) pre)
      by (by repeat constructor).
    assert (Ht2 : trace w2 = trace w ++ pre) by (simpl; by rewrite <- app_assoc).
    assert (Hn2 : node w2 = node w) by done.
    destruct (partitions (node w) !! partID) as [part|] eqn:Hpart.
    2:{ intros [= <- <-]. by apply (Hquiet pre w2). }
    destruct (decide (part_length part = 0)).
    { intros Hrest. exact (Hskip pre w2 w' r Hn2 Ht2 Hpre Hrest). }
    destruct (part_owner part) as [owner|why] eqn:Howner.
    2:{ intros [= <- <-]. by apply (Hquiet pre w2). }
    destruct (cmpMembersByName owner (this (node w))) eqn:Hself.
    { intros Hrest. exact (Hskip pre w2 w' r Hn2 Ht2 Hpre Hrest). }
    destruct (rangeWith _ _ _) as [[w3 part3] c] eqn:Hrange.
    pose proof Hrange as Hframe.
    apply moveRange_frame in Hframe as (Hn3 & _).
    apply moveRange_acks in Hrange as (Ho3 & Hb3 & lR & HtR & HlR & HmR).
    simpl in Hn3.
    intros Hrest. apply IH in Hrest as (Hb & Hth & l & Htl & Hl & Hq); [|done].
    rewrite partitions_set in Hq. simpl in Hb, Hth, Htl.
    rewrite Hn3 in Hb, Hth. split_and!; [done..|].
    exists (pre ++ lR ++ l). rewrite Htl, HtR, Ht2, <- !app_assoc.
    split_and!; [done| |].
    + rewrite !Forall_app. split_and!.
      * eapply Forall_impl; [exact Hpre|].
        intros [v|b|q b name o err]; try done.
      * eapply Forall_impl; [exact HlR|].
        intros [v|b|q b name o err]; try done.
        intros (-> & -> & -> & Hin). split.
        -- simpl. exists part. split_and!; [done..|].
           apply list_elem_of_fmap in Hin as ([nm d] & Heq' & Hin).
           simpl in Heq'. subst name.
           apply elem_of_map_to_list in Hin. by exists d.
        -- intros q. simpl. intros ->%bool_decide_eq_true.
           apply list_elem_of_here.
      * eapply Forall_impl; [exact Hl|]. intros ev [Hs Hin]. split.
        -- destruct ev as [v|b|q b name o err]; try done.
           simpl in Hs. destruct Hs as (part0 & Hp0 & Hs).
           assert (q ∈ partIDs) as Hqin
             by (apply Hin; simpl; by rewrite bool_decide_true).
           rewrite ?partitions_set in Hp0. simpl in Hp0. rewrite ?Hn3 in Hp0.
           rewrite lookup_insert_ne in Hp0 by (intros ->; done).
           rewrite ?Hn3 in Hs. simpl. by exists part0.
        -- intros q Hq'. apply elem_of_cons. right. by apply Hin.
    + intros q. specialize (Hq q). rewrite Hn3 in Hq.
      assert (Hpre' : ∀ name, ¬ acked q name pre).
      { intros name. apply not_acked_elsewhere.
        eapply Forall_impl; [exact Hpre|]. by intros [v|b|q' b' name' o err]. }
      destruct (decide (q = partID)) as [->|Hne].
      * rewrite lookup_insert_eq in Hq. rewrite Hpart. simpl in *.
        destruct Hq as (part' & Hp' & Ho & Hm). exists part'.
        split_and!; [done|congruence|]. intros name.
        destruct (Hm name) as [Ha Hna]. destruct (HmR name) as (_ & HaR & HnaR).
        assert (Hl' : ¬ acked partID name l).
        { intros (b & o & Hin). rewrite Forall_forall in Hl.
          destruct (Hl _ Hin) as [_ Hpid]. apply Hfresh, Hpid.
          simpl. by rewrite bool_decide_true. }
        rewrite (Hna Hl'). unfold pre. simpl.
        rewrite !acked_cons by done. rewrite acked_app. split.
        -- intros [?|?]; [by apply HaR|done].
        -- intros Hno. apply HnaR. intros ?. apply Hno. by left.
      * rewrite lookup_insert_ne in Hq by done. unfold handedOver in *.
        destruct (partitions (node w) !! q) as [part0|]; [|done].
        destruct Hq as (part' & Hp' & Ho & Hm). exists part'.
        split_and!; [done..|]. intros name. destruct (Hm name) as [Ha Hna].
        assert (HR' : ¬ acked q name lR).
        { intros (b & o & Hin). rewrite Forall_forall in HlR.
          specialize (HlR _ Hin). simpl in HlR. by destruct HlR as [-> _]. }
        unfold pre. simpl.
        rewrite !acked_cons by done. rewrite acked_app. split.
        -- intros [?|?]; [done|by apply Ha].
        -- intros Hno. apply Hna. intros ?. apply Hno. by right.
Qed.

(** X3.  Every move the primary pass starts leaves from a partition of the
    node that holds the map and whose owner is, by name, another member, and
    goes to that owner: a partition the node owns by name and an empty
    partition are never shipped. *)
Theorem primary_pass_ships_only_to_foreign_owners (w : World) :
  ∀ w' r, rebalancePrimaryPartitions w = (w', r) →
    ∃ l, trace w' = trace w ++ l ∧ Forall (shipsToOwner w) l.
Proof.
  intros w' r. unfold rebalancePrimaryPartitions. simpl. intros Hloop.
  apply primaryLoop_acks in Hloop as (_ & _ & l & Ht & Hl & _);
    [|apply NoDup_seqZ].
  simpl in Ht. eexists. rewrite <- app_assoc in Ht. split; [exact Ht|].
  apply Forall_cons. split; [done|].
  eapply Forall_impl; [exact Hl|]. by intros ev [Hs _].
Qed.

(** X4.  The primary pass deletes a map from its partition exactly when its
    move was acknowledged: after the pass the maps with an acknowledged move
    are gone, every other map is in its partition as before, the owners
    lists are unchanged, and the backup partitions are not touched. *)
Theorem primary_pass_deletes_after_acknowledgement (w : World) :
  ∀ w' r, rebalancePrimaryPartitions w = (w', r) →
    backups (node w') = backups (node w) ∧
    ∃ l, trace w' = trace w ++ l ∧
      ∀ partID, handedOver (partitions (node w) !! partID)
                  (partitions (node w') !! partID) partID l.
Proof.
  intros w' r. unfold rebalancePrimaryPartitions. simpl. intros Hloop.
  apply primaryLoop_acks in Hloop as (Hb & _ & l & Ht & _ & Hq);
    [|apply NoDup_seqZ].
  simpl in *. split; [done|]. eexists. rewrite <- app_assoc in Ht.
  split; [exact Ht|]. intros q. specialize (Hq q). unfold handedOver in *.
  destruct (partitions (node w) !! q) as [part|]; [|done].
  destruct Hq as (part' & Hp' & Ho & Hm). exists part'.
  split_and!; [done..|]. intros name. destruct (Hm name) as [Ha Hna].
  simpl. by rewrite acked_cons by done.
Qed.

Lemma tailOwnerIDs_members db owners offset k ids0 ids :
  tailOwnerIDs db owners offset k ids0 = Ret ids →
  ∀ id, id ∈ ids →
    id ∈ ids0 ∨
    ∃ member, member ∈ owners ∧ ID member = id ∧
              cmpMembersByName (this db) member = false.
Proof.
  revert ids0. induction k as [|k IH]; intros ids0; simpl.
  - destruct (decide _); [done|]. intros [= <-] id Hin. by left.
  - destruct (decide _); [|by intros [= <-] id Hin; left].
    destruct (owners !! k) as [member|] eqn:Hk; [|done].
    destruct (cmpMembersByName (this db) member) eqn:Hself.
    + apply IH.
    + intros Hrest id Hin. destruct (IH _ Hrest id Hin) as [Hin0|Hm]; [|by right].
      apply elem_of_app in Hin0 as [Hin0|Hin0]; [by left|].
      apply list_elem_of_singleton in Hin0 as ->. right. exists member.
      split_and!; [|done..]. by eapply list_elem_of_lookup_2.
Qed.

Lemma idsLoop_acks rsign partID ids w part w' part' :
  idsLoop rsign partID ids (w, part) = (w', part') →
  node w' = node w ∧
  part_owners part' = part_owners part ∧
  part_backup part' = part_backup part ∧
  ∃ l, trace w' = trace w ++ l ∧
    Forall (λ ev, match ev with
                  | EvMove q b name o _ =>
                      q = partID ∧ b = part_backup part ∧
                      is_Some (part_m part !! name) ∧
                      ∃ id, id ∈ ids ∧ FindMemberByID id = Ok o
                  | _ => True
                  end) l ∧
    ∀ name,
      (part_m part' !! name = None ∨
       part_m part' !! name = part_m part !! name) ∧
      (acked partID name l → part_m part' !! name = None) ∧
      (¬ acked partID name l → part_m part' !! name = part_m part !! name).
Proof.
  revert w part. induction ids as [|id ids IH]; intros w part; simpl.
  - intros [= <- <-]. split_and!; [done..|]. exists [].
    rewrite app_nil_r. split_and!; [done|constructor|].
    intros name. split_and!; [by right| |done].
    intros (b & o & Hin). by apply elem_of_nil in Hin.
  - assert (Hquiet : ∀ (pre : list Event),
              Forall (λ ev, isMove ev = false) pre →
              ∃ l, trace w ++ pre = trace w ++ l ∧
                Forall (λ ev, match ev with
                  | EvMove q b name o _ =>
                      q = partID ∧ b = part_backup part ∧
                      is_Some (part_m part !! name) ∧
                      ∃ id0, id0 ∈ id :: ids ∧ FindMemberByID id0 = Ok o
                  | _ => True
                  end) l ∧
                ∀ name,
                  (part_m part !! name = None ∨
                   part_m part !! name = part_m part !! name) ∧
                  (acked partID name l → part_m part !! name = None) ∧
                  (¬ acked partID name l →
                   part_m part !! name = part_m part !! name)).
    { intros pre Hpre. exists pre. split_and!; [done| |].
      - eapply Forall_impl; [exact Hpre|]. by intros [v|b|q b name o err].
      - intros name. split_and!; [by right| |done]. intros Ha.
        exfalso. revert Ha. apply not_acked_elsewhere.
        eapply Forall_impl; [exact Hpre|]. by intros [v|b|q b name' o err]. }
    destruct (aliveness (probes w)) eqn:Halive; simpl.
    2:{ intros [= <- <-]. simpl. split_and!; [done..|].
        apply (Hquiet [EvIsAlive false]). by repeat constructor. }
    destruct (decide (rsign ≠ routingSignature (loads w))).
    { intros [= <- <-]. simpl. split_and!; [done..|]. rewrite <- app_assoc.
      apply (Hquiet [EvIsAlive true; EvLoadSignature _]).
      by repeat constructor. }
    set (pre := [EvIsAlive true; EvLoadSignature (routingSignature (loads w))]).
    assert (Hpre : Forall (λ ev, isMove ev = false) pre)
      by (by repeat constructor).
    destruct (FindMemberByID id) as [owner|unknown] eqn:Hfind.
    + destruct (rangeWith _ _ _) as [[w1 part1] c] eqn:Hrange.
      pose proof Hrange as Hframe.
      apply moveRange_frame in Hframe as (Hn1 & _).
      apply moveRange_acks in Hrange as (Ho1 & Hb1 & lR & HtR & HlR & HmR).
      simpl in Hn1, HtR. rewrite <- app_assoc in HtR.
      intros Hrest. apply IH in Hrest as (Hn & Ho & Hb & l & Ht & Hl & Hm).
      split_and!; [congruence..|].
      exists (pre ++ lR ++ l). rewrite Ht, HtR, <- !app_assoc.
      split_and!; [done| |].
      * rewrite !Forall_app. split_and!.
        -- eapply Forall_impl; [exact Hpre|]. by intros [v|b|q b name o err].
        -- eapply Forall_impl; [exact HlR|].
           intros [v|b|q b name o err]; try done.
           intros (-> & -> & -> & Hin). split_and!; [done..| |].
           ++ apply list_elem_of_fmap in Hin as ([nm d] & Heq' & Hin).
              simpl in Heq'. subst name.
              apply elem_of_map_to_list in Hin. by exists d.
           ++ exists id. split; [apply list_elem_of_here|done].
        -- eapply Forall_impl; [exact Hl|].
           intros [v|b|q b name o err]; try done.
           rewrite Hb1. intros (-> & -> & Hsome & id0 & Hid0 & Hf).
           split_and!; [done..| |].
           ++ destruct (HmR name) as ([Hz|Hz] & _ & _); rewrite Hz in Hsome;
                [by destruct Hsome|done].
           ++ exists id0. split; [by apply elem_of_cons; right|done].
      * intros name. destruct (Hm name) as (Hmono & Hack & Hnack).
        destruct (HmR name) as (Hmono1 & Hack1 & Hnack1).
        unfold pre. simpl. rewrite !acked_cons by done. rewrite acked_app.
        split_and!.
        -- destruct Hmono as [-> | ->]; [by left|done].
        -- intros [Ha|Ha]; [|by apply Hack].
           destruct Hmono as [-> | ->]; [done|by apply Hack1].
        -- intros Hno. rewrite Hnack by (intros Ha; apply Hno; by right).
           apply Hnack1. intros Ha. apply Hno. by left.
    + intros Hrest. apply IH in Hrest as (Hn & Ho & Hb & l & Ht & Hl & Hm).
      simpl in Hn, Ht. rewrite <- !app_assoc in Ht.
      split_and!; [done..|].
      exists (pre ++ l). split_and!; [done| |].
      * apply Forall_app. split.
        -- eapply Forall_impl; [exact Hpre|]. by intros [v|b|q b name o err].
        -- eapply Forall_impl; [exact Hl|].
           intros [v|b|q b name o e]; try done.
           intros (-> & -> & Hsome & id0 & Hid0 & Hf). split_and!; [done..|].
           exists id0. split; [by apply elem_of_cons; right|done].
      * intros name. destruct (Hm name) as (Hmono & Hack & Hnack).
        unfold pre. simpl. by rewrite !acked_cons by done.
Qed.

Lemma backups_set w backup partID part :
  backups (node (setNodePartition w backup partID part))
  = if backup then <[partID := part]> (backups (node w))
    else backups (node w).
Proof. unfold setNodePartition, setPartition. simpl. by destruct backup. Qed.

Lemma backupLoop_acks rsign partIDs w w' r :
  NoDup partIDs →
  backupLoop rsign partIDs w = (w', r) →
  partitions (node w') = partitions (node w) ∧
  this (node w') = this (node w) ∧
  ∃ l, trace w' = trace w ++ l ∧
    Forall (λ ev, shipsToReplica w ev ∧
                  ∀ q, isMoveOf q ev = true → q ∈ partIDs) l ∧
    ∀ q, handedOver (backups (node w) !! q) (backups (node w') !! q) q l.
Proof.
  revert w w' r. induction partIDs as [|partID partIDs IH];
    intros w w' r Hnodup; simpl.
  - intros [= <- <-]. split_and!; [done..|]. exists []. rewrite app_nil_r.
    split_and!; [done|constructor|]. intros q.
    apply handedOver_untouched. constructor.
  - apply NoDup_cons in Hnodup as [Hfresh Hnodup].
    set (pre := [EvIsAlive (aliveness (probes w))]).
    set (w0 := mkWorld (node w) (network w) (loads w) (S (probes w))
                 (trace w ++ pre)).
    assert (Hpre : Forall (λ ev, isMove ev = false) pre)
      by (by repeat constructor).
    assert (Hquiet :
              partitions (node w0) = partitions (node w) ∧
              this (node w0) = this (node w) ∧
              ∃ l, trace w0 = trace w ++ l ∧
                Forall (λ ev, shipsToReplica w ev ∧
                   ∀ q, isMoveOf q ev = true → q ∈ partID :: partIDs) l ∧
                ∀ q, handedOver (backups (node w) !! q)
                       (backups (node w0) !! q) q l).
    { split_and!; [done..|]. exists pre. split_and!; [done| |].
      - eapply Forall_impl; [exact Hpre|]. intros [v|b|q b name o err]; try done.
      - intros q. apply handedOver_untouched.
        eapply Forall_impl; [exact Hpre|]. by intros [v|b|q' b name o err]. }
    assert (Hskip : ∀ w' r,
              backupLoop rsign partIDs w0 = (w', r) →
              partitions (node w') = partitions (node w) ∧
              this (node w') = this (node w) ∧
              ∃ l, trace w' = trace w ++ l ∧
                Forall (λ ev, shipsToReplica w ev ∧
                   ∀ q, isMoveOf q ev = true → q ∈ partID :: partIDs) l ∧
                ∀ q, handedOver (backups (node w) !! q)
                       (backups (node w') !! q) q l).
    { intros w2 r2 Hrest.
      apply IH in Hrest as (Hb & Hth & l & Htl & Hl & Hq); [|done].
      simpl in Hb, Hth, Htl, Hq. split_and!; [done..|].
      exists (pre ++ l). rewrite Htl, <- app_assoc. split_and!; [done| |].
      - apply Forall_app. split.
        + eapply Forall_impl; [exact Hpre|].
          intros [v|b|q b name o err]; try done.
        + eapply Forall_impl; [exact Hl|]. intros ev [Hs Hin]. split.
          * by destruct ev as [v|b|q b name o err].
          * intros q Hq'. apply elem_of_cons. right. by apply Hin.
      - intros q. specialize (Hq q). unfold handedOver in *.
        destruct (backups (node w) !! q) as [part|]; [|done].
        destruct Hq as (part' & Hp' & Ho & Hm). exists part'.
        split_and!; [done..|]. intros name.
        unfold pre. simpl. rewrite acked_cons by done. apply Hm. }
    fold pre. fold w0.
    destruct (aliveness (probes w)) eqn:Halive; simpl.
    2:{ intros [= <- <-]. exact Hquiet. }
    destruct (backups (node w) !! partID) as [part|] eqn:Hpart.
    2:{ intros [= <- <-]. exact Hquiet. }
    destruct (decide (part_length part = 0)); [by apply Hskip|].
    destruct (decide (Z.of_nat (length (part_owners part))
                      = ReplicaCount (config (node w)) - 1));
      [by apply Hskip|].
    destruct (tailOwnerIDs _ _ _ _ _) as [ids|why] eqn:Hids.
    2:{ intros [= <- <-]. exact Hquiet. }
    destruct (idsLoop rsign partID ids (w0, part)) as [w1 part1] eqn:Hloop.
    apply idsLoop_acks in Hloop as (Hn1 & Ho1 & Hb1 & lI & HtI & HlI & HmI).
    simpl in Hn1, HtI.
    intros Hrest. apply IH in Hrest as (Hp & Hth & l & Htl & Hl & Hq); [|done].
    rewrite backups_set in Hq. simpl in Hp, Hth, Htl.
    rewrite Hn1 in Hp, Hth, Hq. split_and!; [done..|].
    exists (pre ++ lI ++ l). rewrite Htl, HtI, <- !app_assoc.
    split_and!; [done| |].
    + rewrite !Forall_app. split_and!.
      * eapply Forall_impl; [exact Hpre|].
        intros [v|b|q b name o err]; try done.
      * eapply Forall_impl; [exact HlI|].
        intros [v|b|q b name o err]; try done.
        intros (-> & -> & Hsome & id & Hid & Hfind). split.
        -- simpl.
           destruct (tailOwnerIDs_members _ _ _ _ _ _ Hids id Hid)
             as [Hnil|(member & Hmem & <- & Hself)];
             [by apply elem_of_nil in Hnil|].
           by exists part, member.
        -- intros q. simpl. intros ->%bool_decide_eq_true.
           apply list_elem_of_here.
      * eapply Forall_impl; [exact Hl|]. intros ev [Hs Hin]. split.
        -- destruct ev as [v|b|q b name o err]; try done.
           simpl in Hs. destruct Hs as (part0 & member & Hp0 & Hs).
           assert (q ∈ partIDs) as Hqin
             by (apply Hin; simpl; by rewrite bool_decide_true).
           rewrite ?Hn1 in Hp0.
           rewrite lookup_insert_ne in Hp0 by (intros ->; done).
           rewrite ?Hn1 in Hs. simpl. by exists part0, member.
        -- intros q Hq'. apply elem_of_cons. right. by apply Hin.
    + intros q. specialize (Hq q).
      destruct (decide (q = partID)) as [->|Hne].
      * rewrite lookup_insert_eq in Hq. rewrite Hpart. simpl in *.
        destruct Hq as (part' & Hp' & Ho & Hm). exists part'.
        split_and!; [done|congruence|]. intros name.
        destruct (Hm name) as [Ha Hna]. destruct (HmI name) as (_ & HaI & HnaI).
        assert (Hl' : ¬ acked partID name l).
        { intros (b & o & Hin). rewrite Forall_forall in Hl.
          destruct (Hl _ Hin) as [_ Hpid]. apply Hfresh, Hpid.
          simpl. by rewrite bool_decide_true. }
        rewrite (Hna Hl'). rewrite !acked_cons by done. rewrite acked_app.
        split.
        -- intros [?|?]; [by apply HaI|done].
        -- intros Hno. apply HnaI. intros ?. apply Hno. by left.
      * rewrite lookup_insert_ne in Hq by done. unfold handedOver in *.
        destruct (backups (node w) !! q) as [part0|]; [|done].
        destruct Hq as (part' & Hp' & Ho & Hm). exists part'.
        split_and!; [done..|]. intros name. destruct (Hm name) as [Ha Hna].
        assert (HI' : ¬ acked q name lI).
        { intros (b & o & Hin). rewrite Forall_forall in HlI.
          specialize (HlI _ Hin). simpl in HlI. by destruct HlI as [-> _]. }
        unfold pre. simpl.
        rewrite !acked_cons by done. rewrite acked_app. split.
        -- intros [?|?]; [done|by apply Ha].
        -- intros Hno. apply Hna. intros ?. apply Hno. by right.
Qed.

(** X5.  Every move the backup pass starts leaves from a backup partition of
    the node that holds the map, and goes to the member the discovery layer
    returns for the id of an owner of that partition that is not this node
    by name: an id that the discovery layer does not know starts no move,
    and the node never ships a backup to itself. *)
Theorem backup_pass_ships_to_discovered_replicas (w : World) :
  ∀ w' r, rebalanceBackupPartitions w = (w', r) →
    ∃ l, trace w' = trace w ++ l ∧ Forall (shipsToReplica w) l.
Proof.
  intros w' r. unfold rebalanceBackupPartitions. simpl. intros Hloop.
  apply backupLoop_acks in Hloop as (_ & _ & l & Ht & Hl & _);
    [|apply NoDup_seqZ].
  simpl in Ht. eexists. rewrite <- app_assoc in Ht. split; [exact Ht|].
  apply Forall_cons. split; [done|].
  eapply Forall_impl; [exact Hl|]. by intros ev [Hs _].
Qed.

(** X6.  The backup pass deletes a map from its backup partition exactly
    when a move of it was acknowledged: the maps with an acknowledged move
    are gone, every other map is in its partition as before, the owners
    lists are unchanged, and the primary partitions are not touched. *)
Theorem backup_pass_deletes_after_acknowledgement (w : World) :
  ∀ w' r, rebalanceBackupPartitions w = (w', r) →
    partitions (node w') = partitions (node w) ∧
    ∃ l, trace w' = trace w ++ l ∧
      ∀ partID, handedOver (backups (node w) !! partID)
                  (backups (node w') !! partID) partID l.
Proof.
  intros w' r. unfold rebalanceBackupPartitions. simpl. intros Hloop.
  apply backupLoop_acks in Hloop as (Hb & _ & l & Ht & _ & Hq);
    [|apply NoDup_seqZ].
  simpl in *. split; [done|]. eexists. rewrite <- app_assoc in Ht.
  split; [exact Ht|]. intros q. specialize (Hq q). unfold handedOver in *.
  destruct (backups (node w) !! q) as [part|]; [|done].
  destruct Hq as (part' & Hp' & Ho & Hm). exists part'.
  split_and!; [done..|]. intros name.
  simpl. by rewrite acked_cons by done.
Qed.

End Sender.

(** * Shutdown during a pass *)

Section Shutdown.
Context {SE : StorageEngine} {CO : Collaborators}.

Lemma allUp_halts l : allUp l → haltsWhenDown l.
Proof.
  intros Hup l1 l2 ->. apply Forall_app in Hup as [_ Hup].
  by apply Forall_cons in Hup as [Hup _].
Qed.

Lemma down_after_up c l1 l2 l :
  allUp c → c ++ l = l1 ++ EvIsAlive false :: l2 →
  ∃ k, l = k ++ EvIsAlive false :: l2.
Proof.
  intros Hup Heq. apply app_eq_inv in Heq as [(k & -> & Hq)|(k & -> & Hk)].
  - destruct k as [|ev k]; simpl in Hq.
    + by exists [].
    + injection Hq as Hev Hl2. subst ev. exfalso.
      apply Forall_app in Hup as [_ Hup]. by apply Forall_cons in Hup as [Hup _].
  - by exists k.
Qed.

Lemma haltsWhenDown_prefix c l :
  allUp c → haltsWhenDown l → haltsWhenDown (c ++ l).
Proof.
  intros Hup Hl l1 l2 Heq.
  destruct (down_after_up c l1 l2 l Hup Heq) as (k & Hk). by eapply Hl.
Qed.

Lemma haltsSoonWhenDown_prefix c l :
  allUp c → haltsSoonWhenDown l → haltsSoonWhenDown (c ++ l).
Proof.
  intros Hup Hl l1 l2 Heq.
  destruct (down_after_up c l1 l2 l Hup Heq) as (k & Hk). by eapply Hl.
Qed.

Lemma haltsSoonWhenDown_tail c tail :
  allUp c → tail = [] ∨ tail = [EvIsAlive false] →
  haltsSoonWhenDown (c ++ EvIsAlive false :: tail).
Proof.
  intros Hup Htail l1 l2 Heq.
  destruct (down_after_up c l1 l2 _ Hup Heq) as (k & Hk).
  destruct k as [|ev k]; simpl in Hk.
  - by injection Hk as <-.
  - injection Hk as <- Hk. destruct Htail as [-> | ->].
    + by destruct k.
    + destruct k as [|ev k]; simpl in Hk; [|by destruct k].
      injection Hk as <-. by left.
Qed.

Lemma moveRange_probes rsign partID owner kvs w part w' part' c :
  rangeWith (moveVisit rsign partID owner) kvs (w, part) = ((w', part'), c) →
  probes w' = probes w ∧ ∃ l, trace w' = trace w ++ l ∧ allUp l.
Proof.
  intros Hrange. split.
  - revert w part Hrange. induction kvs as [|[name dm] kvs IH]; intros w part.
    + by intros [= <- <- <-].
    + rewrite rangeWith_cons.
      destruct (moveVisit_spec rsign partID owner w part name dm)
        as (net1 & part1 & err & _ & ->).
      destruct (decide _); [|by intros [= <- <- <-]].
      intros Hrest. by apply IH in Hrest.
  - apply moveRange_acks in Hrange as (_ & _ & l & Ht & Hl & _).
    exists l. split; [done|]. eapply Forall_impl; [exact Hl|].
    by intros [v|b|q b name o err].
Qed.

Lemma primaryLoop_halts rsign partIDs w w' r :
  primaryLoop rsign partIDs w = (w', r) →
  ∃ l, trace w' = trace w ++ l ∧ haltsWhenDown l.
Proof.
  revert w w' r. induction partIDs as [|partID partIDs IH];
    intros w w' r; simpl.
  - intros [= <- <-]. exists []. rewrite app_nil_r. split; [done|].
    apply allUp_halts. constructor.
  - destruct (aliveness (probes w)) eqn:Halive; simpl.
    2:{ intros [= <- <-]. simpl. eexists. split; [done|].
        intros l1 l2 Heq. destruct l1 as [|ev l1]; simpl in Heq.
        - by injection Heq as <-.
        - injection Heq as _ Heq. by destruct l1. }
    set (pre := [EvIsAlive true; EvLoadSignature (routingSignature (loads w))]).
    assert (Hpre : allUp pre) by (by repeat constructor).
    assert (Hquiet : ∃ l,
              (trace w ++ [EvIsAlive true]) ++
                [EvLoadSignature (routingSignature (loads w))] = trace w ++ l ∧
              haltsWhenDown l).
    { exists pre. rewrite <- app_assoc. split; [done|]. by apply allUp_halts. }
    assert (Hskip : ∀ w1 w' r (mid : list Event),
              trace w1 = trace w ++ pre ++ mid → allUp mid →
              primaryLoop rsign partIDs w1 = (w', r) →
              ∃ l, trace w' = trace w ++ l ∧ haltsWhenDown l).
    { intros w1 w2 r2 mid Ht1 Hmid Hrest.
      apply IH in Hrest as (l & Ht & Hl). exists (pre ++ mid ++ l).
      rewrite Ht, Ht1, <- !app_assoc. split; [done|].
      apply haltsWhenDown_prefix; [done|]. by apply haltsWhenDown_prefix. }
    destruct (decide (rsign ≠ routingSignature (loads w)));
      [by intros [= <- <-]|].
    destruct (partitions (node w) !! partID) as [part|];
      [|by intros [= <- <-]].
    destruct (decide (part_length part = 0)).
    { apply (Hskip _ _ _ []); [|constructor]. simpl.
      by rewrite <- app_assoc. }
    destruct (part_owner part) as [owner|why]; [|by intros [= <- <-]].
    destruct (cmpMembersByName owner (this (node w))).
    { apply (Hskip _ _ _ []); [|constructor]. simpl.
      by rewrite <- app_assoc. }
    destruct (rangeWith _ _ _) as [[w3 part3] c] eqn:Hrange.
    apply moveRange_probes in Hrange as (_ & lR & HtR & HlR). simpl in HtR.
    apply (Hskip _ _ _ lR); [|done]. simpl.
    by rewrite HtR, <- !app_assoc.
Qed.

(** X7.  In the primary pass nothing follows an [isAlive] probe that found
    the node down: the partition loop breaks there, before loading the
    signature and before starting any move. *)
Theorem primary_pass_ends_at_shutdown (w : World) :
  ∀ w' r, rebalancePrimaryPartitions w = (w', r) →
    ∃ l, trace w' = trace w ++ l ∧
      ∀ l1 l2, l = l1 ++ EvIsAlive false :: l2 → l2 = [].
Proof.
  intros w' r. unfold rebalancePrimaryPartitions. simpl. intros Hloop.
  apply primaryLoop_halts in Hloop as (l & Ht & Hl). simpl in Ht.
  eexists. rewrite <- app_assoc in Ht. split; [exact Ht|].
  apply (haltsWhenDown_prefix [_]); [by repeat constructor|done].
Qed.

Lemma down_next_probe n0 (w : World) :
  staysDown n0 → down n0 w → aliveness (probes w) = false.
Proof.
  intros Hstay [Hn0 Hlast].
  apply (Hstay (pred (probes w)) (probes w)); [lia..|done].
Qed.

Lemma backupLoop_down n0 rsign partIDs w w' r :
  staysDown n0 → down n0 w →
  backupLoop rsign partIDs w = (w', r) →
  ∃ l, trace w' = trace w ++ l ∧ (l = [] ∨ l = [EvIsAlive false]).
Proof.
  intros Hstay Hdown. destruct partIDs as [|partID partIDs]; simpl.
  - intros [= <- <-]. exists []. rewrite app_nil_r. by split; [|left].
  - rewrite (down_next_probe n0 w Hstay Hdown). simpl.
    intros [= <- <-]. simpl. eexists. by split; [|right].
Qed.

(** The loop over the recorded ids: either no probe found the node down, or
    it broke right at the probe that did. *)
Lemma idsLoop_halts n0 rsign partID ids w part w' part' :
  idsLoop rsign partID ids (w, part) = (w', part') →
  (probes w ≤ probes w')%nat ∧
  ∃ l, trace w' = trace w ++ l ∧
    ((allUp l ∧ (down n0 w' → down n0 w)) ∨
     (∃ c, l = c ++ [EvIsAlive false] ∧ allUp c ∧
           ((n0 < probes w)%nat → down n0 w'))).
Proof.
  revert w part. induction ids as [|id ids IH]; intros w part; simpl.
  - intros [= <- <-]. split; [done|]. exists []. rewrite app_nil_r.
    split; [done|]. left. split; [constructor|done].
  - destruct (aliveness (probes w)) eqn:Halive; simpl.
    2:{ intros [= <- <-]. simpl. split; [lia|]. eexists. split; [done|].
        right. exists []. split_and!; [done|constructor|].
        intros Hlt. split; simpl; [lia|done]. }
    set (pre := [EvIsAlive true; EvLoadSignature (routingSignature (loads w))]).
    assert (Hpre : allUp pre) by (by repeat constructor).
    assert (Hnow : ∀ w1 : World, probes w1 = S (probes w) →
                     down n0 w1 → down n0 w).
    { intros w1 Hp [_ Hlast]. rewrite Hp in Hlast. simpl in Hlast. congruence. }
    assert (Hrec : ∀ w1 part1 (mid : list Event),
              trace w1 = trace w ++ pre ++ mid → allUp mid →
              probes w1 = S (probes w) →
              idsLoop rsign partID ids (w1, part1) = (w', part') →
              (probes w ≤ probes w')%nat ∧
              ∃ l, trace w' = trace w ++ l ∧
                ((allUp l ∧ (down n0 w' → down n0 w)) ∨
                 (∃ c, l = c ++ [EvIsAlive false] ∧ allUp c ∧
                       ((n0 < probes w)%nat → down n0 w')))).
    { intros w1 part1 mid Ht1 Hmid Hp1 Hrest.
      apply IH in Hrest as (Hle & l & Ht & Hl). split; [lia|].
      exists (pre ++ mid ++ l). rewrite Ht, Ht1, <- !app_assoc.
      split; [done|].
      destruct Hl as [(Hup & Hd)|(c & -> & Hc & Hd)].
      - left. split.
        + apply Forall_app. split; [done|]. by apply Forall_app.
        + intros Hd'. by apply (Hnow w1 Hp1), Hd.
      - right. exists (pre ++ mid ++ c). rewrite <- !app_assoc.
        split_and!; [done| |].
        + apply Forall_app. split; [done|]. by apply Forall_app.
        + intros Hlt. apply Hd. lia. }
    destruct (decide (rsign ≠ routingSignature (loads w))).
    { intros [= <- <-]. simpl. split; [lia|]. eexists.
      rewrite <- app_assoc. split; [done|]. left. split; [done|].
      by apply Hnow. }
    destruct (FindMemberByID id) as [owner|unknown].
    + destruct (rangeWith _ _ _) as [[w1 part1] c] eqn:Hrange.
      apply moveRange_probes in Hrange as (Hp1 & lR & HtR & HlR).
      simpl in Hp1, HtR.
      apply (Hrec w1 part1 lR); [|done..].
      by rewrite HtR, <- !app_assoc.
    + apply (Hrec _ _ []); [|constructor|done]. simpl.
      by rewrite <- app_assoc.
Qed.

Lemma backupLoop_halts n0 rsign partIDs w w' r :
  staysDown n0 → (n0 ≤ probes w)%nat → ¬ down n0 w →
  backupLoop rsign partIDs w = (w', r) →
  ∃ l, trace w' = trace w ++ l ∧ haltsSoonWhenDown l.
Proof.
  intros Hstay. revert w w' r.
  induction partIDs as [|partID partIDs IH]; intros w w' r Hn0 Hup; simpl.
  - intros [= <- <-]. exists []. rewrite app_nil_r. split; [done|].
    intros l1 l2 Heq. by destruct l1.
  - destruct (aliveness (probes w)) eqn:Halive; simpl.
    2:{ intros [= <- <-]. simpl. eexists. split; [done|].
        apply (haltsSoonWhenDown_tail []); [constructor|by left]. }
    set (w0 := mkWorld (node w) (network w) (loads w) (S (probes w))
                 (trace w ++ [EvIsAlive true])).
    assert (Hup0 : ¬ down n0 w0).
    { intros [_ Hlast]. simpl in Hlast. congruence. }
    assert (Hpre : allUp [EvIsAlive true]) by (by repeat constructor).
    assert (Hquiet : ∃ l, trace w0 = trace w ++ l ∧ haltsSoonWhenDown l).
    { eexists. split; [done|]. intros l1 l2 Heq.
      destruct l1 as [|ev l1]; [done|]. injection Heq as _ Heq.
      by destruct l1. }
    assert (Hskip : ∀ w' r, backupLoop rsign partIDs w0 = (w', r) →
              ∃ l, trace w' = trace w ++ l ∧ haltsSoonWhenDown l).
    { intros w1 r1 Hrest.
      apply IH in Hrest as (l & Ht & Hl); [|simpl; lia|done].
      simpl in Ht. rewrite <- app_assoc in Ht. eexists. split; [exact Ht|].
      by apply (haltsSoonWhenDown_prefix [_]). }
    fold w0.
    destruct (backups (node w) !! partID) as [part|];
      [|by intros [= <- <-]].
    destruct (decide (part_length part = 0)); [by apply Hskip|].
    destruct (decide (Z.of_nat (length (part_owners part))
                      = ReplicaCount (config (node w)) - 1));
      [by apply Hskip|].
    destruct (tailOwnerIDs _ _ _ _ _) as [ids|why]; [|by intros [= <- <-]].
    destruct (idsLoop rsign partID ids (w0, part)) as [w1 part1] eqn:Hids.
    apply (idsLoop_halts n0) in Hids as (Hle & lI & HtI & HlI).
    simpl in Hle, HtI. intros Hrest.
    destruct HlI as [(HupI & Hd)|(c & -> & Hc & Hd)].
    + apply IH in Hrest as (l & Ht & Hl); [|simpl; lia|simpl; tauto].
      simpl in Ht. rewrite HtI, <- !app_assoc in Ht.
      eexists. split; [exact Ht|].
      apply (haltsSoonWhenDown_prefix [_]); [done|].
      by apply haltsSoonWhenDown_prefix.
    + apply (backupLoop_down n0) in Hrest as (l & Ht & Hl);
        [|done|apply Hd; simpl; lia].
      simpl in Ht. rewrite HtI, <- !app_assoc in Ht.
      eexists. split; [exact Ht|].
      apply (haltsSoonWhenDown_prefix [_]); [done|].
      by apply haltsSoonWhenDown_tail.
Qed.

(** X8.  In the backup pass, on a node that stays down once it is down, at
    most one event follows an [isAlive] probe that found the node down,
    namely the probe at the next partition boundary (the probe inside the
    loop over the recorded ids only leaves that loop); no move is started
    after it. *)
Theorem backup_pass_ends_soon_after_shutdown (w : World) :
  staysDown (probes w) →
  ∀ w' r, rebalanceBackupPartitions w = (w', r) →
    ∃ l, trace w' = trace w ++ l ∧
      ∀ l1 l2, l = l1 ++ EvIsAlive false :: l2 →
        (l2 = [] ∨ l2 = [EvIsAlive false]) ∧ moveFree l2.
Proof.
  intros Hstay w' r. unfold rebalanceBackupPartitions. simpl. intros Hloop.
  apply (backupLoop_halts (probes w)) in Hloop as (l & Ht & Hl);
    [|done|simpl; lia|by intros [Hlt _]; simpl in Hlt; lia].
  simpl in Ht. eexists. rewrite <- app_assoc in Ht. split; [exact Ht|].
  intros l1 l2 Heq.
  assert (Hcases : l2 = [] ∨ l2 = [EvIsAlive false]).
  { eapply (haltsSoonWhenDown_prefix [_]); [|exact Hl|exact Heq].
    by repeat constructor. }
  split; [done|]. destruct Hcases as [-> | ->]; by repeat constructor.
Qed.

End Shutdown.

(** * The ids of the backup tail, and a whole handoff *)

Section Handoff.
Context {SE : StorageEngine} {CO : Collaborators}.

Lemma omap_length_le {A B : Type} (f : A → option B) (l : list A) :
  (length (omap f l) ≤ length l)%nat.
Proof.
  induction l as [|a l IH]; [done|]. rewrite length_cons.
  change (omap f (a :: l)) with
    (match f a with Some y => y :: omap f l | None => omap f l end).
  destruct (f a); rewrite ?length_cons; lia.
Qed.

(** X9.  When the owners list has at least [ReplicaCount - 1] entries the
    loop of the backup pass collects, from the last owner backwards, the ids
    of the last [ReplicaCount - 1] owners that are not this node by name: at
    most [ReplicaCount - 1] ids, each the id of an owner in that tail, none
    of this node. *)
Theorem backup_tail_ids_skip_this_node
    (db : Olric) (owners : list Member) (replicas : Z) :
  replicas - 1 ≤ Z.of_nat (length owners) →
  ∃ ids,
    tailOwnerIDs db owners (Z.of_nat (length owners) - 1 - (replicas - 1))
      (length owners) [] = Ret ids ∧
    ids = omap (λ i, owner ← owners !! Z.to_nat i;
                     if cmpMembersByName (this db) owner then None
                     else Some (ID owner))
            (reverse (seqZ (Z.of_nat (length owners) - (replicas - 1))
                        (replicas - 1))) ∧
    Z.of_nat (length ids) ≤ Z.max 0 (replicas - 1) ∧
    ∀ id, id ∈ ids →
      ∃ i owner, Z.of_nat (length owners) - (replicas - 1) ≤ Z.of_nat i ∧
        owners !! i = Some owner ∧ ID owner = id ∧
        cmpMembersByName (this db) owner = false.
Proof.
  intros Hlen. eexists. split_and!; [|reflexivity|..].
  - rewrite tailOwnerIDs_positions by lia.
    replace (Z.of_nat (length owners) - 1 - (replicas - 1) + 1)
      with (Z.of_nat (length owners) - (replicas - 1)) by lia.
    replace (Z.of_nat (length owners) - 1
             - (Z.of_nat (length owners) - 1 - (replicas - 1)))
      with (replicas - 1) by lia.
    done.
  - etrans; [apply Nat2Z.inj_le, omap_length_le|].
    rewrite length_reverse, length_seqZ. lia.
  - intros id Hin. apply list_elem_of_omap in Hin as (i & Hi & Hid).
    apply elem_of_reverse, elem_of_seqZ in Hi.
    destruct (owners !! Z.to_nat i) as [owner|] eqn:Ho; simpl in Hid; [|done].
    destruct (cmpMembersByName (this db) owner) eqn:Hself; [done|].
    injection Hid as <-. exists (Z.to_nat i), owner.
    split_and!; [lia|done..].
Qed.

(** X10.  A whole handoff.  When the sender's export, encoding and request
    succeed, the bytes decode to the box that was packed and its payload
    imports, and the receiver is operable, owns the named partition by id
    and does not hold the map yet (the map it creates being empty): the
    sender deletes the map, the receiver answers [StatusOK], starts no
    compaction, and registers a map whose storage is the imported fragment
    and whose cache is the fresh cache with the sender's access log merged
    in. *)
Theorem handoff_moves_the_map_to_the_new_owner
    (net : Net) (part : partition) (name : string) (dm : dmap) (owner : Member)
    (receiver : Olric) (rpart : partition) :
  ∀ payload value net' resp str fresh,
    Export (storage dm) = Ok payload →
    Marshal (packDMap part name dm payload) = Ok value →
    requestTo net (memberString owner) (mkMessage OpMoveDMap value)
      = (net', Ok resp) →
    Unmarshal value = Ok (packDMap part name dm payload) →
    Import payload = Ok str →
    isOperable receiver = None →
    partitionOf receiver (part_backup part) (part_id part) = Some rpart →
    checkOwnership receiver rpart = true →
    part_m rpart !! name = None →
    createDMap name = Ok fresh →
    Len (storage fresh) = 0 →
    moveDMap net part name dm owner = (net', part_delete part name, None) ∧
    part_m (part_delete part name) !! name = None ∧
    moveDMapOperation receiver (mkMessage OpMoveDMap value)
    = (setPartition receiver (part_backup part) (part_id part)
         (part_store rpart name
            (mkDMap (dm_cache (mergeCache fresh (packDMap part name dm payload)))
               str)),
       Ret StatusOK) ∧
    (∀ c log, dm_cache fresh = Some c → accessLog c = Some log →
       ∀ hkey,
         logOf (mkDMap (dm_cache (mergeCache fresh
                                    (packDMap part name dm payload))) str)
           !! hkey
         = match log !! hkey with
           | Some t => Some t
           | None => logOf dm !! hkey
           end).
Proof.
  intros payload value net' resp str fresh HE HM HR HU HI Hop Hpart Hown
    Hnone Hnew Hlen.
  split_and!.
  - unfold moveDMap. by rewrite HE, HM, HR.
  - simpl. apply lookup_delete_eq.
  - unfold moveDMapOperation. rewrite Hop. simpl. rewrite HU. simpl.
    rewrite Hpart, Hown. simpl.
    unfold mergeDMaps, getOrCreateDMap. simpl. rewrite Hnone, Hnew, HI.
    rewrite mergeCache_storage, decide_True by done.
    by rewrite part_store_twice.
  - intros c log Hc Hlog hkey. unfold logOf, mergeCache. rewrite Hc, Hlog.
    simpl. rewrite mergeAccessLog_lookup. destruct (log !! hkey); [done|].
    destruct (dm_cache dm) as [[[slog|]]|]; simpl; by rewrite ?lookup_empty.
Qed.

End Handoff.

(** * The extra properties on the sample cluster *)

Section MoreScenarios.
Import Cluster.
#[local] Existing Instance Arena.engine.
#[local] Existing Instance quiet.

(** X1, witness.  The map [m] holds hkey 1 written at time 20; the payload
    carries hkey 1 written at time 10: the stored cell is position 0 of the
    sorted pair and stays, and hkey 2, which the payload does not carry, is
    as before. *)
Lemma mergeDMaps_keeps_the_winner_witness :
  let part := partWith false {["m" := loggedMap]} [bob] in
  let db := nodeOf bob 1 1 {[0 := part]} ∅ in
  ∃ dm', part_m (mergeDMaps db part incoming).1.2 !! "m" = Some dm' ∧
    Get (storage dm') 1 = Ok (Arena.mkCell 20 5) ∧
    Get (storage dm') 2 = Err ErrKeyNotFound.
Proof.
  intros part db.
  destruct (mergeDMaps db part incoming) as [[db' part'] res] eqn:Hm.
  assert (Hres : res = Ret None).
  { assert ((mergeDMaps db part incoming).2 = Ret None) as Hc
      by (by vm_compute).
    by rewrite Hm in Hc. }
  subst res.
  destruct (mergeDMaps_keeps_the_winner_of_each_key
              (SE := Arena.engine) (CO := quiet)
              (storage_ok := Arena_contract)
              db part incoming part loggedMap
              (Arena.mkTable {[1 := Arena.mkCell 10 7]} 4) db' part')
    as (dm' & Hdm' & Hin & Hout); [reflexivity|by vm_compute|done|exact Hm|].
  exists dm'. split; [exact Hdm'|]. split.
  - assert (Hpair : (1, Arena.mkCell 10 7)
                    ∈ Range (Arena.mkTable {[1 := Arena.mkCell 10 7]} 4)).
    { vm_compute. apply list_elem_of_here. }
    destruct (Hin 1 (Arena.mkCell 10 7) Hpair) as (v & Hv & Hafter).
    rewrite Hafter. vm_compute in Hv. by injection Hv as <-.
  - rewrite (Hout 2); [reflexivity|].
    intros Hin2. vm_compute in Hin2.
    by apply list_elem_of_singleton in Hin2.
Defined.

End MoreScenarios.
